(** * servest: the keep-alive connection engine of [server.ts]

    A shallow embedding of [listenAndServe], [listenAndServeTls],
    [listenInternal] and [handleKeepAliveConn] (with its inner
    [scheduleReadRequest] and [processRequest]).

    Asynchronous code is modelled by explicit traces: every call the engine
    makes on a collaborator (reading a request, invoking the handler,
    writing a response, closing the body or the connection) is an event,
    and every [await] consults the way the awaited promise settles.  A
    promise that never settles leaves the task stuck at that [await]. *)

From Stdlib Require Import List String Ascii ZArith Bool Lia.
Import ListNotations.
Open Scope string_scope.
Open Scope Z_scope.
Open Scope list_scope.

(** ** JavaScript values the engine computes with *)

(** A [number], restricted to the values the timeouts and counters of the
    engine take: integers and [NaN]. *)
Inductive number : Type :=
| NaN
| Num (z : Z).

(** [ToNumber] on a possibly [undefined] number: [undefined] becomes [NaN]. *)
Definition ToNumber (v : option number) : number :=
  match v with
  | Some n => n
  | None => NaN
  end.

(** [Math.min(a, b)]: [NaN] as soon as one argument is [NaN]. *)
Definition Math_min (a b : number) : number :=
  match a, b with
  | Num x, Num y => Num (Z.min x y)
  | _, _ => NaN
  end.

(** [a * b] on numbers. *)
Definition number_mul (a b : number) : number :=
  match a, b with
  | Num x, Num y => Num (x * y)
  | _, _ => NaN
  end.

(** [a <= b]: false when an argument is [NaN]. *)
Definition number_le (a b : number) : bool :=
  match a, b with
  | Num x, Num y => x <=? y
  | _, _ => false
  end.

(** [a === b] on numbers: [NaN] is equal to nothing. *)
Definition number_eq (a b : number) : bool :=
  match a, b with
  | Num x, Num y => x =? y
  | _, _ => false
  end.

(** How an awaited promise settles. *)
Inductive Settle (A : Type) : Type :=
| Resolved (a : A)
| Rejected (e : string)
| Pending.
Arguments Resolved {A} a.
Arguments Rejected {A} e.
Arguments Pending {A}.

(** ** The response dispatch queue *)

Module WaitQueue.
Section Queue.
Variable T : Type.

Inductive Event : Type :=
| Enqueued (t : T)
| WriteBegin (t : T)
| WriteEnd (t : T) (ok : bool).

(** Jobs submitted and not yet completed, oldest first.  The head, when
    there is one, is the job the worker is writing. *)
Definition queue : Type := list T.

(** Modelled from the spec: [promiseWaitQueue] of util.ts, which is not
    among the sources.  "Per-connection FIFO of asynchronous write jobs
    ... a single serialized worker per connection that drains queued jobs
    one at a time; enqueue never blocks the caller, only the drain is
    serialized."  [enqueue] appends the job and, when the worker is idle,
    starts writing it at once. *)
Definition enqueue (t : T) (q : queue) : list Event * queue :=
  (Enqueued t :: match q with
                 | [] => [WriteBegin t]
                 | _ :: _ => []
                 end,
   q ++ [t]).

(** Modelled from the spec: the worker of [promiseWaitQueue].  The write
    in flight completes ([ok] tells whether it succeeded); the job leaves
    the queue and the worker starts on the next one, if any.  A failed
    write does "not silently drop or skip subsequent jobs". *)
Definition dequeue (ok : bool) (q : queue) : list Event * queue :=
  match q with
  | [] => ([], [])
  | t :: rest =>
      (WriteEnd t ok :: match rest with
                        | n :: _ => [WriteBegin n]
                        | [] => []
                        end,
       rest)
  end.

(** What can happen to a queue: a handler submits a response, or the
    write in flight completes. *)
Inductive Input : Type :=
| Submit (t : T)
| WriteDone (ok : bool).

Definition step (i : Input) (q : queue) : list Event * queue :=
  match i with
  | Submit t => enqueue t q
  | WriteDone ok => dequeue ok q
  end.

(** The queue driven by any interleaving of submissions and write
    completions, from the state [st] (events so far, jobs queued). *)
Definition run_from (st : list Event * queue) (ins : list Input)
  : list Event * queue :=
  fold_left
    (fun st i => let '(ev, q') := step i (snd st) in (fst st ++ ev, q'))
    ins st.

Definition run (ins : list Input) : list Event * queue :=
  run_from ([], []) ins.

(** Jobs submitted, in submission order. *)
Fixpoint submitted (ins : list Input) : list T :=
  match ins with
  | [] => []
  | Submit t :: rest => t :: submitted rest
  | WriteDone _ :: rest => submitted rest
  end.

(** Jobs whose write began, in the order the writes began. *)
Fixpoint begun (tr : list Event) : list T :=
  match tr with
  | [] => []
  | WriteBegin t :: rest => t :: begun rest
  | _ :: rest => begun rest
  end.

(** Jobs whose write completed, in the order the writes completed. *)
Fixpoint ended (tr : list Event) : list T :=
  match tr with
  | [] => []
  | WriteEnd t _ :: rest => t :: ended rest
  | _ :: rest => ended rest
  end.

(** Every write that began before a given point of the trace has ended
    by then: no two writes overlap. *)
Definition serialized (tr : list Event) : Prop :=
  forall pre t post, tr = pre ++ WriteBegin t :: post -> ended pre = begun pre.

(** The invariant of the worker: the jobs submitted are those written and
    those queued; the writes begun are those ended and the one in
    flight. *)
Record inv (ins : list Input) (tr : list Event) (q : queue) : Prop := {
  inv_submitted : submitted ins = ended tr ++ q;
  inv_begun : begun tr = ended tr ++ firstn 1 q;
  inv_serialized : serialized tr
}.

End Queue.

Arguments Enqueued {T} t.
Arguments WriteBegin {T} t.
Arguments WriteEnd {T} t ok.
Arguments Submit {T} t.
Arguments WriteDone {T} ok.
Arguments enqueue {T} t q.
Arguments dequeue {T} ok q.
Arguments step {T} i q.
Arguments run_from {T} st ins.
Arguments run {T} ins.
Arguments submitted {T} ins.
Arguments begun {T} tr.
Arguments ended {T} tr.
Arguments serialized {T} tr.
Arguments inv {T} ins tr q.

End WaitQueue.


(** ** Requests, responses and options *)

(** [Headers]: the fields in insertion order.  Names compare without
    regard to case; [get] joins the values of a repeated field. *)
Definition Headers : Type := list (string * string).

Definition ascii_lower (c : ascii) : ascii :=
  let n := nat_of_ascii c in
  if ((65 <=? n) && (n <=? 90))%nat then ascii_of_nat (n + 32) else c.

Fixpoint lower (s : string) : string :=
  match s with
  | EmptyString => EmptyString
  | String c rest => String (ascii_lower c) (lower rest)
  end.

Definition Headers_get (h : Headers) (name : string) : option string :=
  match filter (fun kv => String.eqb (lower (fst kv)) (lower name)) h with
  | [] => None
  | kv :: rest => Some (String.concat ", " (map snd (kv :: rest)))
  end.

(** [x === "close"] on the result of [Headers.get]. *)
Definition is_string (x : option string) (s : string) : bool :=
  match x with
  | Some v => String.eqb v s
  | None => false
  end.

Record KeepAlive : Type := {
  timeout : number;
  max : number
}.

(** [BodyReader]: the engine only closes it; [close] tells how the promise
    of [body.close()] settles. *)
Record BodyReader : Type := {
  close : Settle unit
}.

Record IncomingHttpRequest : Type := {
  url : string;
  method : string;
  proto : string;
  headers : Headers;
  body : BodyReader;
  keepAlive : option KeepAlive
}.

Record ServerResponse : Type := {
  status : number;
  response_headers : Headers;
  response_body : option string
}.

(** [ServeOptions]: every field is optional.  A cancel promise is known by
    its name. *)
Record ServeOptions : Type := {
  cancel : option nat;
  keepAliveTimeout : option number;
  readTimeout : option number
}.

(** The literal [{}]. *)
Definition no_options : ServeOptions :=
  {| cancel := None; keepAliveTimeout := None; readTimeout := None |}.

(** A parameter declared [opts: ServeOptions = {}]. *)
Definition or_default (opts : option ServeOptions) : ServeOptions :=
  match opts with
  | Some o => o
  | None => no_options
  end.

(** The request handed to the handler: the request read, and the match of
    its url against [/^\//]. *)
Record ServerRequest : Type := {
  baseReq : IncomingHttpRequest;
  match_ : list string
}.

(** [url.match(/^\//)]: the match when the url begins with a slash. *)
Definition match_slash (u : string) : option (list string) :=
  if String.prefix "/" u then Some ["/"] else None.

(** What one invocation of the handler does: the response it submits with
    [req.respond] before it returns, if any; whether it awaits the
    completion signal of that submission; and how its own promise
    settles.  A handler that responds after it has returned is a
    [Late.ServeHandler], further down. *)
Record HandlerRun : Type := {
  responds : option ServerResponse;
  awaits_respond : bool;
  returns : Settle unit
}.

Definition ServeHandler : Type := ServerRequest -> HandlerRun.

(** A connection, seen from the engine: how each successive call of
    [readRequest(bufReader, opts)] settles.  After the last entry the peer
    is silent and a read stays pending. *)
Definition ReadRequest : Type := ServeOptions -> Settle IncomingHttpRequest.
Definition Conn : Type := list ReadRequest.

Definition silent : ReadRequest := fun _ => Pending.

(** Modelled from the spec: [respondedStatus] of the responder built by
    [createResponder] (responder.ts is not among the sources): the status
    of the response the handler submitted, [undefined] when it submitted
    none. *)
Definition respondedStatus (run : HandlerRun) : option number :=
  option_map status (responds run).

(** [x === n] for a possibly [undefined] number [x]. *)
Definition is_number (x : option number) (n : Z) : bool :=
  match x with
  | Some v => number_eq v (Num n)
  | None => false
  end.

(** ** Traces of a connection session *)

Inductive Event : Type :=
| ReadCalled (opts : ServeOptions)
    (** [readRequest(bufReader, opts)] is called *)
| HandlerCalled (req : ServerRequest)
    (** [handler(req)] is called *)
| Queue (e : WaitQueue.Event ServerResponse)
    (** the dispatch queue takes a response, calls [writeResponse] on it,
        or sees that write complete *)
| HandlerReturned
    (** the promise of [handler(req)] has resolved *)
| BodyClosed
    (** the promise of [req.body.close()] has resolved *)
| ConnClosed.
    (** [conn.close()] is called *)

(** How an asynchronous function ends: it returns, it throws, or it stays
    at an [await] for ever. *)
Inductive Outcome (A : Type) : Type :=
| Returned (a : A)
| Thrown (e : string)
| Stuck.
Arguments Returned {A} a.
Arguments Thrown {A} e.
Arguments Stuck {A}.

(** A task of the session: from the state of the dispatch queue to the
    events it causes and its outcome, with the queue it leaves. *)
Definition Task (A : Type) : Type :=
  WaitQueue.queue ServerResponse ->
  list Event * Outcome (A * WaitQueue.queue ServerResponse).

Definition ret {A} (a : A) : Task A := fun q => ([], Returned (a, q)).

Definition throw {A} (e : string) : Task A := fun _ => ([], Thrown e).

Definition bind {A B} (m : Task A) (k : A -> Task B) : Task B :=
  fun q =>
    match m q with
    | (tr, Returned (a, q')) => let '(tr', o) := k a q' in (tr ++ tr', o)
    | (tr, Thrown e) => (tr, Thrown e)
    | (tr, Stuck) => (tr, Stuck)
    end.

Definition emit (e : Event) : Task unit := fun q => ([e], Returned (tt, q)).

(** [await p] for a promise that settles as [p]. *)
Definition await {A} (p : Settle A) : Task A :=
  fun q =>
    match p with
    | Resolved a => ([], Returned (a, q))
    | Rejected e => ([], Thrown e)
    | Pending => ([], Stuck)
    end.

Declare Scope task_scope.
Delimit Scope task_scope with task.
Notation "x <- m ;; k" := (bind m (fun x => k))
  (at level 61, m at next level, right associativity) : task_scope.
Notation "m ;; k" := (bind m (fun _ => k))
  (at level 61, right associativity) : task_scope.
Open Scope task_scope.

(** The local variable [responded] of [processRequest]. *)
Inductive Promise : Type :=
| Fulfilled
    (** [Promise.resolve()], or a completion signal that has resolved *)
| Failed (e : string)
    (** a completion signal that was rejected *)
| Writing.
    (** the completion signal of the job enqueued last, not settled yet *)

(** ** The connection session: [handleKeepAliveConn] *)

Section Session.
(** The handler, the way [writeResponse(bufWriter, resp)] settles, and
    the options [handleKeepAliveConn] was called with. *)
Variable handler : ServeHandler.
Variable writeResponse : ServerResponse -> Settle unit.
Variable originalOpts : ServeOptions.

(** The worker of the queue [q] runs until the queue is empty: each
    job's write settles the way [writeResponse] says, and the result is
    the way the completion signal of the last job settles. *)
Fixpoint drain (q : WaitQueue.queue ServerResponse)
  : list Event * Settle unit :=
  match q with
  | [] => ([], Resolved tt)
  | resp :: rest =>
      match writeResponse resp with
      | Pending => ([], Pending)
      | Resolved _ =>
          let tr := map Queue (fst (WaitQueue.dequeue true (resp :: rest))) in
          let '(tr', s) := drain rest in (tr ++ tr', s)
      | Rejected e =>
          let tr := map Queue (fst (WaitQueue.dequeue false (resp :: rest))) in
          match rest with
          | [] => (tr, Rejected e)
          | _ :: _ => let '(tr', s) := drain rest in (tr ++ tr', s)
          end
      end
  end.

(** Waiting for the completion signal of the job enqueued last. *)
Definition settle_responded : Task Promise :=
  fun q =>
    match drain q with
    | (tr, Resolved _) => (tr, Returned (Fulfilled, []))
    | (tr, Rejected e) => (tr, Returned (Failed e, []))
    | (tr, Pending) => (tr, Stuck)
    end.

(** [q.enqueue(resp)], with [q] the queue whose jobs are
    [writeResponse(bufWriter, resp)]. *)
Definition q_enqueue (resp : ServerResponse) : Task unit :=
  fun q =>
    let '(ev, q') := WaitQueue.enqueue resp q in
    (map Queue ev, Returned (tt, q')).

(** [onResponse]: [responded = q.enqueue(resp); return responded]. *)
Definition onResponse (resp : ServerResponse) : Task Promise :=
  q_enqueue resp ;; ret Writing.

(** [await handler(req)]: the handler runs, submits its response through
    [onResponse] and settles.  The result is the value of [responded]
    once the handler has returned.  The write of a submission that the
    handler does not await is shown after the return of the handler; it
    may as well complete before. *)
Definition call_handler (req : ServerRequest) : Task Promise :=
  let run := handler req in
  emit (HandlerCalled req) ;;
  responded <-
    match responds run with
    | None => ret Fulfilled
    | Some resp =>
        responded <- onResponse resp ;;
        if awaits_respond run then settle_responded else ret responded
    end ;;
  await (returns run) ;;
  emit HandlerReturned ;;
  ret responded.

(** [await responded]. *)
Definition await_responded (responded : Promise) : Task unit :=
  match responded with
  | Fulfilled => ret tt
  | Failed e => throw e
  | Writing =>
      p <- settle_responded ;;
      match p with
      | Failed e => throw e
      | _ => ret tt
      end
  end.

(** The end of [processRequest], once the response is flushed and the
    body closed: stop on an upgrade, throw when the keep-alive budget is
    used up or the peer asked to close, and otherwise return the options
    of the next read. *)
Definition decide_continue (opts : ServeOptions) (req : IncomingHttpRequest)
  (respondedStatus : option number) : Task (option ServeOptions) :=
  if is_number respondedStatus 101 then
    (* If upgraded, stop processing *)
    ret None
  else
    let keepAliveTimeout0 := keepAliveTimeout originalOpts in
    if match keepAlive req with
       | Some ka => number_le (max ka) (Num 0)
       | None => false
       end
    then throw "keep-alive ended"
    else if is_string (Headers_get (headers req) "connection") "close"
    then throw "connection closed header"
    else
      let keepAliveTimeout1 :=
        match keepAlive req with
        | Some ka =>
            Some (Math_min (ToNumber keepAliveTimeout0)
                           (number_mul (timeout ka) (Num 1000)))
        | None => keepAliveTimeout0
        end in
      ret (Some {| keepAliveTimeout := keepAliveTimeout1;
                   readTimeout := readTimeout opts;
                   cancel := cancel opts |}).

Definition processRequest (opts : ServeOptions) (readRequest : ReadRequest)
  : Task (option ServeOptions) :=
  emit (ReadCalled opts) ;;
  baseReq <- await (readRequest opts) ;;
  match match_slash (url baseReq) with
  | None => throw "malformed url"
  | Some m =>
      let req := {| baseReq := baseReq; match_ := m |} in
      responded <- call_handler req ;;
      await_responded responded ;;
      await (close (body baseReq)) ;;
      emit BodyClosed ;;
      decide_continue opts baseReq (respondedStatus (handler req))
  end.

(** How a session ends: the connection is closed; the loop has stopped
    and left the connection open; or the session waits for ever at an
    [await]. *)
Inductive SessionEnd : Type :=
| Closed
| Stopped
| Waiting.

(** [scheduleReadRequest]: [processRequest(opts)], then the next cycle
    with the options it returned, nothing when it returned [undefined],
    and [conn.close()] when it threw.  The trace ends where the chain of
    cycles ends: a write that is still in flight then settles later, and
    the trace does not follow it. *)
Fixpoint scheduleReadRequest (opts : ServeOptions) (conn : Conn)
  (q : WaitQueue.queue ServerResponse) : list Event * SessionEnd :=
  match conn with
  | [] => (fst (processRequest opts silent q), Waiting)
  | readRequest :: rest =>
      match processRequest opts readRequest q with
      | (tr, Returned (Some v, q')) =>
          let '(tr', e) := scheduleReadRequest v rest q' in (tr ++ tr', e)
      | (tr, Returned (None, _)) => (tr, Stopped)
      | (tr, Thrown _) => (tr ++ [ConnClosed], Closed)
      | (tr, Stuck) => (tr, Waiting)
      end
  end.

(** The request the handler receives for [req], when the url of [req]
    begins with a slash. *)
Definition served (req : IncomingHttpRequest) : ServerRequest :=
  {| baseReq := req; match_ := ["/"] |}.

(** The cycle of [req] runs to its end: the handler returns, the write of
    the response it submitted completes, and the body closes. *)
Record completes (req : IncomingHttpRequest) : Prop := {
  handler_returns : returns (handler (served req)) = Resolved tt;
  response_flushed :
    forall resp, responds (handler (served req)) = Some resp ->
                 writeResponse resp = Resolved tt;
  body_closes : close (body req) = Resolved tt
}.

(** What happens between the call of the handler for [req] and the
    closing of the body, in a cycle that runs to its end. *)
Definition handler_events (req : IncomingHttpRequest) : list Event :=
  match responds (handler (served req)) with
  | None => [HandlerReturned]
  | Some resp =>
      if awaits_respond (handler (served req)) then
        [Queue (WaitQueue.Enqueued resp); Queue (WaitQueue.WriteBegin resp);
         Queue (WaitQueue.WriteEnd resp true); HandlerReturned]
      else
        [Queue (WaitQueue.Enqueued resp); Queue (WaitQueue.WriteBegin resp);
         HandlerReturned; Queue (WaitQueue.WriteEnd resp true)]
  end.

End Session.

Definition is_read (e : Event) : bool :=
  match e with
  | ReadCalled _ => true
  | _ => false
  end.

Definition is_close (e : Event) : bool :=
  match e with
  | ConnClosed => true
  | _ => false
  end.

(** No event of [tr] passes the filter [p]. *)
Definition without (p : Event -> bool) (tr : list Event) : bool :=
  forallb (fun e => negb (p e)) tr.

(** No request is read in [tr]. *)
Definition no_read (tr : list Event) : bool := without is_read tr.

(** A task none of whose events passes the filter [p]. *)
Definition avoids {A} (p : Event -> bool) (m : Task A) : Prop :=
  forall q, without p (fst (m q)) = true.

(** The events of the dispatch queue in [tr]. *)
Definition queue_events (tr : list Event)
  : list (WaitQueue.Event ServerResponse) :=
  flat_map (fun e => match e with Queue x => [x] | _ => [] end) tr.

(** A task that uses the dispatch queue as a queue: what it does to the
    queue [q] is what some submissions and write completions do to it. *)
Definition tracks {A} (m : Task A) : Prop :=
  forall q, exists ins,
    fst (WaitQueue.run_from ([], q) ins) = queue_events (fst (m q)) /\
    match snd (m q) with
    | Returned (_, q') => snd (WaitQueue.run_from ([], q) ins) = q'
    | _ => True
    end.

Definition handleKeepAliveConn (conn : Conn) (handler : ServeHandler)
  (writeResponse : ServerResponse -> Settle unit)
  (opts : option ServeOptions) : list Event * SessionEnd :=
  let opts := or_default opts in
  let originalOpts := opts in
  (* ignore keepAliveTimeout and use readTimeout for the first time *)
  scheduleReadRequest handler writeResponse originalOpts
    {| keepAliveTimeout := readTimeout opts;
       readTimeout := readTimeout opts;
       cancel := cancel opts |}
    conn [].

(** ** The listener supervisor: [listenInternal] and the entry points *)

Module Supervisor.

(** The variables of [listenInternal]: the flag [closed], whether the
    deferred [d] and the caller's [opts.cancel] have resolved, and whether
    a call of [listener.accept()] is pending. *)
Record State : Type := {
  closed : bool;
  d_resolved : bool;
  external_resolved : bool;
  accepting : bool
}.

Inductive Event : Type :=
| Accept
    (** [listener.accept()] is called *)
| Serve (conn : Conn) (opts : ServeOptions)
    (** [handleKeepAliveConn(conn, handler, opts)] is called *)
| ResolveD
    (** [d.resolve()] is called *)
| ListenerClose.
    (** [listener.close()] is called *)

(** What happens to a supervisor: its [close()] is called, the caller's
    cancel promise resolves, or the pending accept settles. *)
Inductive Input : Type :=
| CallClose
| CancelResolves
| AcceptSettles (r : Settle Conn).

Section Listen.
Variable opts : ServeOptions.

(** [cancel]: [Promise.race([opts.cancel, d])] when the caller gave a
    cancel promise, [d] otherwise. *)
Definition cancelled (s : State) : bool :=
  match cancel opts with
  | Some _ => external_resolved s || d_resolved s
  | None => d_resolved s
  end.

(** Modelled from the spec: [promiseInterrupter] of promises.ts, which is
    not among the sources.  A wait composed with the cancellation signal
    is abandoned once the signal has resolved and yields a cancelled
    outcome; otherwise it settles as the wait itself does. *)
Definition throwIfCancelled {A} (signal : bool) (p : Settle A) : Settle A :=
  if signal then Rejected "cancelled" else p.

(** [close]: resolve the deferred and close the socket, unless that was
    done before. *)
Definition close_ (s : State) : list Event * State :=
  if negb (closed s) then
    ([ResolveD; ListenerClose],
     {| closed := true;
        d_resolved := true;
        external_resolved := external_resolved s;
        accepting := accepting s |})
  else ([], s).

(** [acceptRoutine]: nothing once closed; otherwise call
    [listener.accept()] under [throwIfCancelled]. *)
Definition acceptRoutine (s : State) : list Event * State :=
  if closed s then ([], s)
  else
    ([Accept],
     {| closed := closed s;
        d_resolved := d_resolved s;
        external_resolved := external_resolved s;
        accepting := true |}).

(** The continuations of [throwIfCancelled(listener.accept())]: on a
    connection, [handleKeepAliveConn] and [acceptRoutine]; on a
    rejection, [close].  [r] tells how the accept itself stands. *)
Definition settle_accept (r : Settle Conn) (s : State) : list Event * State :=
  if accepting s then
    let idle := {| closed := closed s;
                   d_resolved := d_resolved s;
                   external_resolved := external_resolved s;
                   accepting := false |} in
    match throwIfCancelled (cancelled s) r with
    | Resolved conn =>
        let '(ev, s') := acceptRoutine idle in (Serve conn opts :: ev, s')
    | Rejected _ => close_ idle
    | Pending => ([], s)
    end
  else ([], s).

(** One thing happens to the supervisor.  A call of [close()] runs
    [close] and resolves the cancellation signal, so that the pending
    accept, if any, is abandoned and its rejection runs [close] once more.
    The caller's cancel promise resolving abandons the pending accept in
    the same way, when the caller gave such a promise. *)
Definition step (i : Input) (s : State) : list Event * State :=
  match i with
  | CallClose =>
      let '(ev, s1) := close_ s in
      let '(ev', s2) := settle_accept Pending s1 in
      (ev ++ ev', s2)
  | CancelResolves =>
      settle_accept Pending
        {| closed := closed s;
           d_resolved := d_resolved s;
           external_resolved := true;
           accepting := accepting s |}
  | AcceptSettles r => settle_accept r s
  end.

(** The supervisor under a succession of inputs. *)
Fixpoint run (ins : list Input) (s : State) : list Event * State :=
  match ins with
  | [] => ([], s)
  | i :: rest =>
      let '(ev, s1) := step i s in
      let '(ev', s2) := run rest s1 in
      (ev ++ ev', s2)
  end.

End Listen.

(** [listenInternal]: the first [acceptRoutine()], and then whatever
    happens to the supervisor. *)
Definition listenInternal (opts : option ServeOptions) (ins : list Input)
  : list Event * State :=
  let opts := or_default opts in
  let closed0 := {| closed := false;
                    d_resolved := false;
                    external_resolved := false;
                    accepting := false |} in
  let '(ev, s) := acceptRoutine closed0 in
  let '(ev', s') := run opts ins s in
  (ev ++ ev', s').

(** Modelled from the spec: [initServeOptions] of serveio.ts, which is not
    among the sources.  "Defaults: keepAliveTimeoutMillis = 75000,
    readTimeoutMillis = 75000": a timeout the caller left out is 75000. *)
Definition initServeOptions (opts : ServeOptions) : ServeOptions :=
  {| cancel := cancel opts;
     keepAliveTimeout :=
       match keepAliveTimeout opts with
       | Some t => Some t
       | None => Some (Num 75000)
       end;
     readTimeout :=
       match readTimeout opts with
       | Some t => Some t
       | None => Some (Num 75000)
       end |}.

Definition listenAndServeTls (opts : option ServeOptions) (ins : list Input)
  : list Event * State :=
  listenInternal opts ins.

Definition listenAndServe (opts : option ServeOptions) (ins : list Input)
  : list Event * State :=
  let opts := initServeOptions (or_default opts) in
  listenInternal (Some opts) ins.

(** How often the supervisor closed the listening socket, and how often it
    resolved its deferred. *)
Definition socket_closes (tr : list Event) : nat :=
  List.length
    (filter (fun e => match e with ListenerClose => true | _ => false end) tr).

Definition signal_resolves (tr : list Event) : nat :=
  List.length
    (filter (fun e => match e with ResolveD => true | _ => false end) tr).

(** The invariant of the supervisor: while open, an accept is pending, the
    cancellation signal is unresolved and nothing was closed; once closed,
    no accept is pending, and the deferred was resolved and the socket
    closed exactly once. *)
Definition inv (opts : ServeOptions) (tr : list Event) (s : State) : Prop :=
  if closed s then
    accepting s = false /\
    socket_closes tr = 1%nat /\ signal_resolves tr = 1%nat
  else
    accepting s = true /\ cancelled opts s = false /\
    socket_closes tr = 0%nat /\ signal_resolves tr = 0%nat.

End Supervisor.


(** ** A sample handler and sample requests *)

Module Sample.

Definition body_ok : BodyReader := {| close := Resolved tt |}.

Definition get (u : string) (h : Headers) (ka : option KeepAlive)
  : IncomingHttpRequest :=
  {| url := u; method := "GET"; proto := "HTTP/1.1";
     headers := h; body := body_ok; keepAlive := ka |}.

Definition get_a : IncomingHttpRequest :=
  get "/a" [("Connection", "keep-alive"); ("Keep-Alive", "timeout=5, max=3")]
      (Some {| timeout := Num 5; max := Num 3 |}).

Definition get_b : IncomingHttpRequest :=
  get "/b" [("Connection", "close")] None.

Definition get_last : IncomingHttpRequest :=
  get "/c" [("Connection", "keep-alive"); ("Keep-Alive", "timeout=5, max=0")]
      (Some {| timeout := Num 5; max := Num 0 |}).

Definition get_ws : IncomingHttpRequest :=
  get "/ws" [("Connection", "Upgrade"); ("Upgrade", "websocket")] None.

Definition get_malformed : IncomingHttpRequest :=
  get "index.html" [] None.

Definition ok : ServerResponse :=
  {| status := Num 200;
     response_headers := [("content-type", "text/plain")];
     response_body := Some "hello" |}.

Definition switching : ServerResponse :=
  {| status := Num 101;
     response_headers := [("upgrade", "websocket")];
     response_body := None |}.

(** Answers 101 on [/ws] and 200 elsewhere, and awaits the write. *)
Definition handler : ServeHandler :=
  fun req =>
    {| responds :=
         Some (if String.eqb (url (baseReq req)) "/ws" then switching else ok);
       awaits_respond := true;
       returns := Resolved tt |}.

Definition writeResponse (_ : ServerResponse) : Settle unit := Resolved tt.

Definition opts : ServeOptions :=
  {| cancel := None;
     keepAliveTimeout := Some (Num 75000);
     readTimeout := Some (Num 1000) |}.

(** A connection on which the given requests arrive, one per read. *)
Definition reads (l : list IncomingHttpRequest) : Conn :=
  map (fun req _ => Resolved req) l.

(** The options of the first read under [opts]. *)
Definition first_read : ServeOptions :=
  {| cancel := None;
     keepAliveTimeout := Some (Num 1000);
     readTimeout := Some (Num 1000) |}.

(** The options of the read that follows the cycle of [get_a]. *)
Definition second_read : ServeOptions :=
  {| cancel := None;
     keepAliveTimeout := Some (Num 5000);
     readTimeout := Some (Num 1000) |}.

End Sample.
(** ** Sample failures *)

Module SampleFailures.

(** A read that times out. *)
Definition read_timeout : ReadRequest := fun _ => Rejected "read timeout".

(** A handler that throws before it responds. *)
Definition failing_handler : ServeHandler :=
  fun _ => {| responds := None;
              awaits_respond := false;
              returns := Rejected "not implemented" |}.

(** A handler that returns without a response. *)
Definition silent_handler : ServeHandler :=
  fun _ => {| responds := None;
              awaits_respond := false;
              returns := Resolved tt |}.




(** A request whose body cannot be closed. *)
Definition get_torn : IncomingHttpRequest :=
  {| url := "/upload"; method := "POST"; proto := "HTTP/1.1";
     headers := [("Content-Length", "10")];
     body := {| close := Rejected "unexpected eof" |};
     keepAlive := None |}.

End SampleFailures.

(** ** Further filters on the events of a session *)

Definition is_handler_call (e : Event) : bool :=
  match e with
  | HandlerCalled _ => true
  | _ => false
  end.

(** ** [serveJsx]: the handler that serves jsx and tsx files *)

Module Jsx.

Definition Props : Type := list (string * string).

(** The property [getInitialProps] of a component, as [typeof] sees it: a
    function, with the way the promise of its call settles, or anything
    else, a missing property included. *)
Inductive InitialProps : Type :=
| NoFunction
| PropsFunction (result : Settle Props).

(** A React component: a function, known by its name. *)
Record Component : Type := {
  name : string;
  getInitialProps : InitialProps
}.

(** What a module can export as [default], as far as truthiness and
    [typeof] tell the values apart. *)
Inductive Exported : Type :=
| EUndefined
| ENull
| EBool (b : bool)
| ENumber (n : number)
| EString (s : string)
| EObject
| EFunction (c : Component).

(** [!el]. *)
Definition falsy (el : Exported) : bool :=
  match el with
  | EUndefined | ENull => true
  | EBool b => negb b
  | ENumber NaN => true
  | ENumber (Num z) => z =? 0
  | EString s => String.eqb s ""
  | EObject | EFunction _ => false
  end.

Record JsModule : Type := {
  default : Exported
}.

(** The first argument of [React.createElement]: [React.Fragment] or a
    component. *)
Inductive ElementType : Type :=
| Fragment
| Of (c : Component).

(** [React.createElement(type, props, children)]. *)
#[local] Unset Elimination Schemes.
Inductive Element : Type :=
| createElement (type : ElementType) (props : Props) (children : list Element).
#[local] Set Elimination Schemes.

(** A parameter declared [parentComponent: any = React.Fragment]. *)
Definition or_Fragment (parentComponent : option ElementType) : ElementType :=
  match parentComponent with
  | Some c => c
  | None => Fragment
  end.

(** [if (p)] on the result of [resolveIndexPath]: a path that is not
    empty. *)
Definition found (p : option string) : option string :=
  match p with
  | Some file => if String.eqb file "" then None else Some file
  | None => None
  end.

Section ServeJsx.
(** The collaborators: [resolveIndexPath] of matcher.ts, the field [path]
    that [readRequest] gives a request, [ReactDOMServer.renderToString],
    and the way [writeResponse] settles, which is how the promise of
    [req.respond] settles. *)
Variable resolveIndexPath : string -> string -> list string -> Settle (option string).
Variable path : IncomingHttpRequest -> string.
Variable renderToString : Element -> string.
Variable writeResponse : ServerResponse -> Settle unit.

(** The handler returns without a response. *)
Definition returned : HandlerRun :=
  {| responds := None; awaits_respond := false; returns := Resolved tt |}.

(** The handler throws before it responds. *)
Definition throws (e : string) : HandlerRun :=
  {| responds := None; awaits_respond := false; returns := Rejected e |}.

(** The handler waits for ever, before it responds. *)
Definition hangs : HandlerRun :=
  {| responds := None; awaits_respond := false; returns := Pending |}.

(** [x = await p; ...] in a handler that has not responded yet. *)
Definition awaiting {A} (p : Settle A) (k : A -> HandlerRun) : HandlerRun :=
  match p with
  | Resolved a => k a
  | Rejected e => throws e
  | Pending => hangs
  end.

(** [await req.respond(resp)] as the last statement of a handler. *)
Definition respond (resp : ServerResponse) : HandlerRun :=
  {| responds := Some resp;
     awaits_respond := true;
     returns := writeResponse resp |}.

Definition serveJsx (dir : string) (onImport : string -> Settle JsModule)
  (parentComponent : option ElementType) : ServeHandler :=
  let parentComponent := or_Fragment parentComponent in
  fun req =>
    awaiting (resolveIndexPath dir (path (baseReq req)) [".tsx"; ".jsx"])
      (fun p =>
         match found p with
         | Some p =>
             awaiting (onImport p)
               (fun jsx =>
                  let el := default jsx in
                  if falsy el then
                    throws "jsx: jsx/tsx files served by serveJsx must has default export!"
                  else
                    match el with
                    | EFunction el =>
                        awaiting
                          match getInitialProps el with
                          | PropsFunction result => result
                          | NoFunction => Resolved []
                          end
                          (fun props =>
                             respond
                               {| status := Num 200;
                                  response_headers :=
                                    [("content-type", "text/html; charset=UTF-8")];
                                  response_body :=
                                    Some (renderToString
                                            (createElement parentComponent []
                                               [createElement (Of el) props []])) |})
                    | _ => throws "jsx: default export must be React component!"
                    end)
         | None => returned
         end).

End ServeJsx.

End Jsx.

(** ** A sample site for [serveJsx] *)

Module SampleJsx.
Import Jsx.

Definition About : Component :=
  {| name := "About"; getInitialProps := PropsFunction (Resolved [("title", "About")]) |}.

(** [pages/about.tsx] exports the component; [pages/broken.tsx] has no
    default export. *)
Definition onImport (file : string) : Settle JsModule :=
  if String.eqb file "pages/about.tsx" then Resolved {| default := EFunction About |}
  else if String.eqb file "pages/broken.tsx" then Resolved {| default := EUndefined |}
  else Rejected "Cannot resolve module".

Definition resolveIndexPath (dir p : string) (_ : list string)
  : Settle (option string) :=
  if String.eqb p "/about" then Resolved (Some (dir ++ "/about.tsx")%string)
  else if String.eqb p "/broken" then Resolved (Some (dir ++ "/broken.tsx")%string)
  else Resolved None.

Definition path (req : IncomingHttpRequest) : string := url req.

Fixpoint renderToString (el : Element) : string :=
  match el with
  | createElement type _ children =>
      let inner := String.concat "" (map renderToString children) in
      match type with
      | Fragment => inner
      | Of c => ("<" ++ name c ++ ">" ++ inner ++ "</" ++ name c ++ ">")%string
      end
  end.

Definition handler : ServeHandler :=
  serveJsx resolveIndexPath path renderToString Sample.writeResponse
    "pages" onImport None.

Definition get_about : IncomingHttpRequest := Sample.get "/about" [] None.

(** The page of [/about]. *)
Definition about_page : ServerResponse :=
  {| status := Num 200;
     response_headers := [("content-type", "text/html; charset=UTF-8")];
     response_body := Some "<About></About>" |}.
Definition get_broken : IncomingHttpRequest := Sample.get "/broken" [] None.
Definition get_nothing : IncomingHttpRequest := Sample.get "/nothing" [] None.

End SampleJsx.

(** ** Handlers that respond after they have returned *)

Module Late.

(** What one invocation of a handler does when the handler may also
    respond after its promise has resolved, which the type of a handler
    in server.ts does not forbid: [before_return] is what it does until
    it returns, and [after_return] is a response that reaches
    [onResponse] later, from a timer of the handler that fires while the
    session waits for the next request. *)
Record LateRun : Type := {
  before_return : HandlerRun;
  after_return : option ServerResponse
}.

Definition ServeHandler : Type := ServerRequest -> LateRun.

Definition is_handler_returned (e : Event) : bool :=
  match e with
  | HandlerReturned => true
  | _ => false
  end.

(** The events [lev] take place while the read that opens [tr] is
    pending: right after that read is called. *)
Definition after_read (lev tr : list Event) : list Event :=
  match tr with
  | e :: rest => e :: lev ++ rest
  | [] => lev
  end.

Section Session.
Variable handler : ServeHandler.
Variable writeResponse : ServerResponse -> Settle unit.
Variable originalOpts : ServeOptions.

(** What the handler does until it returns. *)
Definition in_time : ServerRequest -> HandlerRun :=
  fun req => before_return (handler req).

(** The worker of the queue goes on by itself as far as the writes
    settle; a write that never completes stays in flight. *)
Fixpoint work (q : WaitQueue.queue ServerResponse)
  : list Event * WaitQueue.queue ServerResponse :=
  match q with
  | [] => ([], [])
  | resp :: rest =>
      match writeResponse resp with
      | Pending => ([], resp :: rest)
      | Resolved _ =>
          let tr := map Queue (fst (WaitQueue.dequeue true (resp :: rest))) in
          let '(tr', q') := work rest in (tr ++ tr', q')
      | Rejected _ =>
          let tr := map Queue (fst (WaitQueue.dequeue false (resp :: rest))) in
          let '(tr', q') := work rest in (tr ++ tr', q')
      end
  end.

(** A late [req.respond(resp)]: [onResponse] enqueues the response, and
    nobody awaits its completion signal. *)
Definition submit (late : option ServerResponse)
  (q : WaitQueue.queue ServerResponse)
  : list Event * WaitQueue.queue ServerResponse :=
  match late with
  | None => ([], q)
  | Some resp =>
      let '(ev, q1) := WaitQueue.enqueue resp q in
      let '(tr, q2) := work q1 in
      (map Queue ev ++ tr, q2)
  end.

(** The response that the handler of the cycle [tr] submits after it has
    returned, if it has returned. *)
Definition late_response (opts : ServeOptions) (readRequest : ReadRequest)
  (tr : list Event) : option ServerResponse :=
  match readRequest opts with
  | Resolved req =>
      if existsb is_handler_returned tr
      then after_return (handler (served req))
      else None
  | _ => None
  end.

(** [scheduleReadRequest] with such handlers: [late] is the response the
    handler of the cycle before submits while this cycle's read is
    pending.  The trace ends where the session ends: what a handler
    submits after the last cycle is not shown. *)
Fixpoint scheduleReadRequest (opts : ServeOptions) (conn : Conn)
  (q : WaitQueue.queue ServerResponse) (late : option ServerResponse)
  : list Event * SessionEnd :=
  let '(lev, q1) := submit late q in
  match conn with
  | [] =>
      (after_read lev
         (fst (processRequest in_time writeResponse originalOpts opts silent q1)),
       Waiting)
  | readRequest :: rest =>
      match processRequest in_time writeResponse originalOpts opts readRequest q1 with
      | (tr, Returned (Some v, q')) =>
          let '(tr', e) :=
            scheduleReadRequest v rest q' (late_response opts readRequest tr) in
          (after_read lev tr ++ tr', e)
      | (tr, Returned (None, _)) => (after_read lev tr, Stopped)
      | (tr, Thrown _) => (after_read lev tr ++ [ConnClosed], Closed)
      | (tr, Stuck) => (after_read lev tr, Waiting)
      end
  end.

End Session.

Definition handleKeepAliveConn (conn : Conn) (handler : ServeHandler)
  (writeResponse : ServerResponse -> Settle unit)
  (opts : option ServeOptions) : list Event * SessionEnd :=
  let opts := or_default opts in
  let originalOpts := opts in
  (* ignore keepAliveTimeout and use readTimeout for the first time *)
  scheduleReadRequest handler writeResponse originalOpts
    {| keepAliveTimeout := readTimeout opts;
       readTimeout := readTimeout opts;
       cancel := cancel opts |}
    conn [] None.



End Late.

(** ** More sample requests *)

Module SampleHeaders.



End SampleHeaders.

(** How often [conn.close()] was called. *)
Definition conn_closes (tr : list Event) : nat :=
  List.length (filter is_close tr).

(** ** [serveJsx] with a rendering that can throw *)

Module JsxRender.
Import Jsx.

(** [ReactDOMServer.renderToString(element)]: the markup, or the error it
    throws (a component that throws, a value that is no component). *)
Inductive Rendered : Type :=
| Markup (html : string)
| RenderError (e : string).

Section ServeJsx.
Variable resolveIndexPath : string -> string -> list string -> Settle (option string).
Variable path : IncomingHttpRequest -> string.
Variable renderToString : Element -> Rendered.
Variable writeResponse : ServerResponse -> Settle unit.

(** [serveJsx]; the argument of [req.respond] is evaluated before the
    call, so that a rendering that throws makes the handler throw with
    nothing submitted. *)
Definition serveJsx (dir : string) (onImport : string -> Settle JsModule)
  (parentComponent : option ElementType) : ServerRequest -> HandlerRun :=
  let parentComponent := or_Fragment parentComponent in
  fun req =>
    awaiting (resolveIndexPath dir (path (baseReq req)) [".tsx"; ".jsx"])
      (fun p =>
         match found p with
         | Some p =>
             awaiting (onImport p)
               (fun jsx =>
                  let el := default jsx in
                  if falsy el then
                    throws "jsx: jsx/tsx files served by serveJsx must has default export!"
                  else
                    match el with
                    | EFunction el =>
                        awaiting
                          match getInitialProps el with
                          | PropsFunction result => result
                          | NoFunction => Resolved []
                          end
                          (fun props =>
                             match renderToString
                                     (createElement parentComponent []
                                        [createElement (Of el) props []])
                             with
                             | Markup html =>
                                 respond writeResponse
                                   {| status := Num 200;
                                      response_headers :=
                                        [("content-type", "text/html; charset=UTF-8")];
                                      response_body := Some html |}
                             | RenderError e => throws e
                             end)
                    | _ => throws "jsx: default export must be React component!"
                    end)
         | None => returned
         end).

End ServeJsx.

End JsxRender.

(** ** Counting the events of a supervisor *)

Module SupervisorCount.
Import Supervisor.

(** How often [listener.accept()] was called. *)
Definition accepts (tr : list Event) : nat :=
  List.length (filter (fun e => match e with Accept => true | _ => false end) tr).

(** How many connections were handed to [handleKeepAliveConn]. *)
Definition serves (tr : list Event) : nat :=
  List.length (filter (fun e => match e with Serve _ _ => true | _ => false end) tr).

(** The inputs that close a supervisor: a call of [close()], the caller's
    cancel promise resolving (when the caller gave one), and an accept that
    fails. *)
Definition closing (opts : ServeOptions) (i : Input) : Prop :=
  i = CallClose \/
  (i = CancelResolves /\ cancel opts <> None) \/
  exists err, i = AcceptSettles (Rejected err).

End SupervisorCount.

(** ** Properties of the response dispatch queue *)

Module WaitQueueFacts.
Import WaitQueue.
Section Facts.
Variable T : Type.
Implicit Types (q : queue T) (tr : list (Event T)) (ins : list (Input T)).

Lemma begun_app tr1 tr2 : begun (tr1 ++ tr2) = begun tr1 ++ begun tr2.
Proof.
  induction tr1 as [|e tr1 IH]; simpl; [reflexivity|].
  destruct e; simpl; rewrite IH; reflexivity.
Qed.

Lemma ended_app tr1 tr2 : ended (tr1 ++ tr2) = ended tr1 ++ ended tr2.
Proof.
  induction tr1 as [|e tr1 IH]; simpl; [reflexivity|].
  destruct e; simpl; rewrite IH; reflexivity.
Qed.

Lemma submitted_app ins1 ins2 :
  submitted (ins1 ++ ins2) = submitted ins1 ++ submitted ins2.
Proof.
  induction ins1 as [|i ins1 IH]; simpl; [reflexivity|].
  destruct i; simpl; rewrite IH; reflexivity.
Qed.

Lemma run_snoc ins i :
  run (ins ++ [i]) =
  let '(ev, q') := step i (snd (run ins)) in (fst (run ins) ++ ev, q').
Proof. unfold run, run_from. rewrite fold_left_app. reflexivity. Qed.

Lemma serialized_nil : serialized (@nil (Event T)).
Proof. intros [|? ?] t post H; discriminate H. Qed.

Lemma serialized_snoc_quiet tr ev :
  serialized tr -> begun ev = [] -> serialized (tr ++ ev).
Proof.
  intros Hs Hev pre t post Heq.
  apply app_eq_app in Heq. destruct Heq as [l [[H1 H2] | [H1 H2]]].
  - destruct l as [|e l].
    + simpl in H2. rewrite <- H2 in Hev. simpl in Hev. discriminate.
    + simpl in H2. injection H2 as He Hl. subst e.
      apply (Hs pre t l). exact H1.
  - rewrite H2 in Hev. rewrite begun_app in Hev. simpl in Hev.
    destruct (begun l); discriminate.
Qed.

Lemma serialized_snoc_begin tr ev t :
  serialized tr -> begun ev = [] ->
  ended (tr ++ ev) = begun (tr ++ ev) ->
  serialized ((tr ++ ev) ++ [WriteBegin t]).
Proof.
  intros Hs Hev Hbal pre t' post Heq.
  apply app_eq_app in Heq. destruct Heq as [l [[H1 H2] | [H1 H2]]].
  - destruct l as [|e l].
    + simpl in H2. injection H2 as Ht Hp. rewrite app_nil_r in H1.
      subst pre. exact Hbal.
    + simpl in H2. injection H2 as He Hl. subst e.
      apply (serialized_snoc_quiet tr ev Hs Hev pre t' l). exact H1.
  - destruct l as [|e l]; simpl in H2.
    + injection H2 as Ht Hp. rewrite app_nil_r in H1. subst pre. exact Hbal.
    + injection H2 as He Hl. destruct l; discriminate Hl.
Qed.

Lemma inv_step ins tr q i :
  inv ins tr q ->
  inv (ins ++ [i]) (tr ++ fst (step i q)) (snd (step i q)).
Proof.
  intros [Hsub Hbeg Hser]. destruct i as [t | ok]; simpl.
  - (* a submission *)
    destruct q as [|h q]; simpl in *.
    + rewrite app_nil_r in Hsub, Hbeg.
      split.
      * rewrite submitted_app, Hsub, ended_app. simpl.
        rewrite app_nil_r. reflexivity.
      * rewrite begun_app, ended_app. simpl. rewrite Hbeg, app_nil_r.
        reflexivity.
      * change (tr ++ [Enqueued t; WriteBegin t])
          with (tr ++ [Enqueued t] ++ [WriteBegin t]).
        rewrite app_assoc. apply serialized_snoc_begin; auto.
        rewrite ended_app, begun_app. simpl.
        rewrite !app_nil_r. symmetry. exact Hbeg.
    + split.
      * rewrite submitted_app, Hsub, ended_app. simpl.
        rewrite app_nil_r, <- app_assoc. reflexivity.
      * rewrite begun_app, ended_app. simpl. rewrite Hbeg, !app_nil_r.
        reflexivity.
      * apply serialized_snoc_quiet; auto.
  - (* the write in flight completes *)
    destruct q as [|h q]; simpl in *.
    + rewrite app_nil_r. split; auto.
      rewrite submitted_app, Hsub. simpl. rewrite !app_nil_r. reflexivity.
    + destruct q as [|n q]; simpl in *.
      * split.
        -- rewrite submitted_app, Hsub, ended_app. simpl.
           rewrite !app_nil_r. reflexivity.
        -- rewrite begun_app, ended_app. simpl. rewrite Hbeg, !app_nil_r.
           reflexivity.
        -- apply serialized_snoc_quiet; auto.
      * split.
        -- rewrite submitted_app, Hsub, ended_app. simpl.
           rewrite app_nil_r, <- app_assoc. reflexivity.
        -- rewrite begun_app, ended_app. simpl. rewrite Hbeg.
           rewrite <- !app_assoc. reflexivity.
        -- change (tr ++ [WriteEnd h ok; WriteBegin n])
             with (tr ++ [WriteEnd h ok] ++ [WriteBegin n]).
           rewrite app_assoc. apply serialized_snoc_begin; auto.
           rewrite ended_app, begun_app. simpl.
           rewrite app_nil_r. symmetry. exact Hbeg.
Qed.

Lemma inv_run ins : inv ins (fst (run ins)) (snd (run ins)).
Proof.
  induction ins as [|i ins IH] using rev_ind.
  - split; simpl; auto using serialized_nil.
  - rewrite run_snoc.
    pose proof (inv_step _ _ _ i IH) as H.
    destruct (step i (snd (run ins))) as [ev q']. exact H.
Qed.

(** C1: the dispatch queue writes the responses in the order they were
    submitted to it, whatever the interleaving of submissions and write
    completions: the writes begun are an initial segment of the jobs
    submitted, in submission order, and whenever a write begins, every
    write begun before it has completed. *)
Theorem promiseWaitQueue_submission_order ins :
  (exists waiting, submitted ins = begun (fst (run ins)) ++ waiting) /\
  (forall pre t post,
      fst (run ins) = pre ++ WriteBegin t :: post ->
      ended pre = begun pre).
Proof.
  destruct (inv_run ins) as [Hsub Hbeg Hser]. split.
  - exists (skipn 1 (snd (run ins))).
    rewrite Hbeg, <- app_assoc, firstn_skipn. exact Hsub.
  - exact Hser.
Qed.

End Facts.
End WaitQueueFacts.

Section SessionFacts.
Variable handler : ServeHandler.
Variable writeResponse : ServerResponse -> Settle unit.
Variable originalOpts : ServeOptions.

Ltac unfold_task :=
  cbv beta iota zeta delta
    [processRequest call_handler onResponse q_enqueue await_responded
     settle_responded match_slash bind ret throw emit await
     WaitQueue.enqueue].

Lemma decide_continue_queue opts req st q :
  exists o, decide_continue originalOpts opts req st q = ([], o) /\
            match o with
            | Returned (_, q') => q' = q
            | _ => True
            end.
Proof.
  unfold decide_continue.
  destruct (is_number st 101); [eexists; split; [reflexivity|reflexivity]|].
  destruct (match keepAlive req with Some ka => number_le (max ka) (Num 0) | None => false end);
    [eexists; split; [reflexivity|exact I]|].
  destruct (is_string _ _); eexists; split; try reflexivity; exact I.
Qed.

(** A cycle that runs to its end, event by event. *)
Lemma processRequest_completes opts rd req :
  rd opts = Resolved req ->
  String.prefix "/" (url req) = true ->
  completes handler writeResponse req ->
  processRequest handler writeResponse originalOpts opts rd [] =
  (ReadCalled opts :: HandlerCalled (served req)
     :: handler_events handler req ++ [BodyClosed],
   snd (decide_continue originalOpts opts req
          (respondedStatus (handler (served req))) [])).
Proof.
  intros Hrd Hurl [Hret Hw Hclose].
  destruct (decide_continue_queue opts req (respondedStatus (handler (served req))) []) as [o [Ho _]].
  unfold handler_events. unfold_task.
  rewrite Hrd, Hurl. cbn. fold (served req). rewrite Hret.
  destruct (responds (handler (served req))) as [resp|] eqn:Hresp; cbn.
  - specialize (Hw resp eq_refl).
    destruct (awaits_respond (handler (served req))); cbn;
      rewrite Hw; cbn; rewrite Hclose; cbn; rewrite Ho;  reflexivity.
  - rewrite Hclose; cbn. rewrite Ho. reflexivity.
Qed.

Lemma processRequest_returns opts rd tr v q' :
  processRequest handler writeResponse originalOpts opts rd [] = (tr, Returned (v, q')) ->
  exists req, rd opts = Resolved req /\ String.prefix "/" (url req) = true /\
              completes handler writeResponse req /\ q' = [].
Proof.
  unfold_task.
  destruct (rd opts) as [req| |] eqn:Hrd; cbn; try discriminate.
  destruct (String.prefix "/" (url req)) eqn:Hurl; cbn; try discriminate.
  fold (served req).
  destruct (decide_continue_queue opts req (respondedStatus (handler (served req))) []) as [o [Ho Hq]].
  intros H. exists req. split; [reflexivity|]. split; [exact Hurl|].
  destruct (responds (handler (served req))) as [resp|] eqn:Hresp.
  - destruct (awaits_respond (handler (served req))); cbn in H.
    + destruct (writeResponse resp) as [[]| |] eqn:Hw; cbn in H;
        try discriminate H;
        destruct (returns (handler (served req))) as [[]| |] eqn:Hret;
        cbn in H; try discriminate H.
      destruct (close (body req)) as [[]| |] eqn:Hclose;
        cbn in H; try discriminate H.
      rewrite Ho in H. destruct o as [[v0 q0]| |]; try discriminate H.
      injection H as _ _ <-.
      split; [split; [exact Hret | | exact Hclose] | exact Hq].
      intros resp' Hr. rewrite Hresp in Hr. injection Hr as <-. exact Hw.
    + destruct (returns (handler (served req))) as [[]| |] eqn:Hret;
        cbn in H; try discriminate H.
      destruct (writeResponse resp) as [[]| |] eqn:Hw; cbn in H;
        try discriminate H.
      destruct (close (body req)) as [[]| |] eqn:Hclose;
        cbn in H; try discriminate H.
      rewrite Ho in H. destruct o as [[v0 q0]| |]; try discriminate H.
      injection H as _ _ <-.
      split; [split; [exact Hret | | exact Hclose] | exact Hq].
      intros resp' Hr. rewrite Hresp in Hr. injection Hr as <-. exact Hw.
  - cbn in H.
    destruct (returns (handler (served req))) as [[]| |] eqn:Hret;
      cbn in H; try discriminate H.
    destruct (close (body req)) as [[]| |] eqn:Hclose;
      cbn in H; try discriminate H.
    rewrite Ho in H. destruct o as [[v0 q0]| |]; try discriminate H.
    injection H as _ _ <-.
    split; [split; [exact Hret | | exact Hclose] | exact Hq].
    intros resp' Hr. rewrite Hresp in Hr. discriminate Hr.
Qed.

Lemma no_read_app a b : no_read (a ++ b) = no_read a && no_read b.
Proof. apply forallb_app. Qed.

Lemma without_close_In c : without is_close c = true -> ~ In ConnClosed c.
Proof.
  unfold without. rewrite forallb_forall. intros H Hin.
  specialize (H _ Hin). discriminate H.
Qed.

Lemma no_read_In c o : no_read c = true -> ~ In (ReadCalled o) c.
Proof.
  unfold no_read, without. rewrite forallb_forall. intros H Hin.
  specialize (H _ Hin). discriminate H.
Qed.

Lemma In_no_read c : (forall o, ~ In (ReadCalled o) c) -> no_read c = true.
Proof.
  intros H. apply forallb_forall. intros [o| | | | |] Hin; try reflexivity.
  destruct (H o Hin).
Qed.

Lemma fst_bind_emit {B} e (k : unit -> Task B) q :
  fst (bind (emit e) k q) = e :: fst (k tt q).
Proof. unfold bind, emit. destruct (k tt q). reflexivity. Qed.

Lemma bind_await_resolved {A B} (a : A) (k : A -> Task B) q :
  bind (await (Resolved a)) k q = k a q.
Proof. unfold bind, await. destruct (k a q). reflexivity. Qed.

Lemma fst_bind_prefix {A B} (m : Task A) (k : A -> Task B) q :
  exists t, fst (bind m k q) = fst (m q) ++ t.
Proof.
  unfold bind. destruct (m q) as [tr [[a q']| |]]; simpl.
  - destruct (k a q') as [tr' o]. exists tr'. reflexivity.
  - exists []. rewrite app_nil_r. reflexivity.
  - exists []. rewrite app_nil_r. reflexivity.
Qed.

Lemma without_app p a b : without p (a ++ b) = without p a && without p b.
Proof. apply forallb_app. Qed.

Section Avoids.
(** An event filter that none of the events after the read of a cycle
    passes. *)
Variable p : Event -> bool.
Hypothesis p_handler_called : forall req, p (HandlerCalled req) = false.
Hypothesis p_queue : forall e, p (Queue e) = false.
Hypothesis p_handler_returned : p HandlerReturned = false.
Hypothesis p_body_closed : p BodyClosed = false.

Lemma avoids_bind {A B} (m : Task A) (k : A -> Task B) :
  avoids p m -> (forall a, avoids p (k a)) -> avoids p (bind m k).
Proof.
  intros Hm Hk q. unfold bind. specialize (Hm q).
  destruct (m q) as [tr [[a q']| |]]; simpl in *; auto.
  specialize (Hk a q'). destruct (k a q') as [tr' o]. simpl in *.
  rewrite without_app, Hm, Hk. reflexivity.
Qed.

Lemma avoids_ret {A} (a : A) : avoids p (ret a).
Proof. intros q. reflexivity. Qed.

Lemma avoids_throw {A} e : avoids p (@throw A e).
Proof. intros q. reflexivity. Qed.

Lemma avoids_await {A} (s : Settle A) : avoids p (await s).
Proof. intros q. destruct s; reflexivity. Qed.

Lemma avoids_emit e : p e = false -> avoids p (emit e).
Proof. intros He q. simpl. rewrite He. reflexivity. Qed.

Lemma without_queue_events l : without p (map Queue l) = true.
Proof.
  induction l as [|e l IH]; simpl; [reflexivity|].
  rewrite p_queue. exact IH.
Qed.

Lemma drain_avoids q : without p (fst (drain writeResponse q)) = true.
Proof.
  induction q as [|resp rest IH]; [reflexivity|].
  cbn [drain]. destruct (writeResponse resp); [| |reflexivity].
  - destruct (drain writeResponse rest) as [tr s].
    cbv beta iota zeta delta [fst] in *.
    rewrite without_app, without_queue_events, IH. reflexivity.
  - destruct rest as [|n rest]; [apply without_queue_events|].
    destruct (drain writeResponse (n :: rest)) as [tr s].
    cbv beta iota zeta delta [fst] in *.
    rewrite without_app, without_queue_events, IH. reflexivity.
Qed.

Lemma avoids_settle_responded : avoids p (settle_responded writeResponse).
Proof.
  intros q. unfold settle_responded. pose proof (drain_avoids q) as H.
  destruct (drain writeResponse q) as [tr [[]| |]]; exact H.
Qed.

Lemma avoids_q_enqueue resp : avoids p (q_enqueue resp).
Proof.
  intros q. unfold q_enqueue.
  destruct (WaitQueue.enqueue resp q) as [ev q'].
  apply without_queue_events.
Qed.

Lemma avoids_call_handler req :
  avoids p (call_handler handler writeResponse req).
Proof.
  unfold call_handler, onResponse.
  apply avoids_bind; [apply avoids_emit, p_handler_called|]. intros _.
  apply avoids_bind.
  - destruct (responds (handler req)); [|apply avoids_ret].
    apply avoids_bind.
    + apply avoids_bind; [apply avoids_q_enqueue | intros; apply avoids_ret].
    + intros r. destruct (awaits_respond (handler req));
        [apply avoids_settle_responded | apply avoids_ret].
  - intros r. apply avoids_bind; [apply avoids_await|]. intros _.
    apply avoids_bind;
      [apply avoids_emit, p_handler_returned | intros; apply avoids_ret].
Qed.

Lemma avoids_decide_continue opts req st :
  avoids p (decide_continue originalOpts opts req st).
Proof.
  intros q.
  destruct (decide_continue_queue opts req st q) as [o [-> _]]. reflexivity.
Qed.

(** A cycle is its read, followed by events that [p] rejects. *)
Lemma processRequest_avoids opts rd q :
  exists c, fst (processRequest handler writeResponse originalOpts opts rd q)
            = ReadCalled opts :: c /\ without p c = true.
Proof.
  unfold processRequest.
  match goal with
  | |- context [bind (emit (ReadCalled opts)) ?k] => set (K := k)
  end.
  assert (HK : avoids p (K tt)).
  { subst K. cbv beta. apply avoids_bind; [apply avoids_await|]. intros req.
    destruct (match_slash (url req)); [|apply avoids_throw].
    apply avoids_bind; [apply avoids_call_handler|]. intros r.
    apply avoids_bind.
    { destruct r; [apply avoids_ret | apply avoids_throw |].
      apply avoids_bind; [apply avoids_settle_responded|].
      intros [| |]; [apply avoids_ret | apply avoids_throw | apply avoids_ret]. }
    intros _. apply avoids_bind; [apply avoids_await|]. intros _.
    apply avoids_bind; [apply avoids_emit, p_body_closed|]. intros _.
    apply avoids_decide_continue. }
  rewrite fst_bind_emit. exists (fst (K tt q)).
  split; [reflexivity | apply HK].
Qed.

End Avoids.

(** A cycle reads once, at its very start. *)
Lemma processRequest_one_read opts rd q :
  exists c, fst (processRequest handler writeResponse originalOpts opts rd q)
            = ReadCalled opts :: c /\ no_read c = true.
Proof. apply processRequest_avoids; reflexivity. Qed.

(** A cycle never closes the connection itself. *)
Lemma processRequest_never_closes opts rd q :
  without is_close
    (fst (processRequest handler writeResponse originalOpts opts rd q)) = true.
Proof.
  destruct (processRequest_avoids is_close) with (opts := opts) (rd := rd) (q := q)
    as [c [-> Hc]]; try reflexivity.
  exact Hc.
Qed.

(** The first read of [c ++ T], when [c] has none, is in [T]. *)
Lemma split_after_quiet c : forall T p o s,
  no_read c = true ->
  c ++ T = p ++ ReadCalled o :: s ->
  exists p', p = c ++ p' /\ T = p' ++ ReadCalled o :: s.
Proof.
  induction c as [|x c IH]; intros T p o s Hc Heq.
  - exists p. split; [reflexivity | exact Heq].
  - simpl in Hc. apply andb_true_iff in Hc. destruct Hc as [Hx Hc].
    destruct p as [|y p]; simpl in Heq; injection Heq as Hxy Heq.
    + subst x. discriminate Hx.
    + subst y. destruct (IH T p o s Hc Heq) as [p' [-> ->]].
      exists p'. split; reflexivity.
Qed.

Lemma first_read_unique a : forall b x y s t,
  no_read a = true -> no_read b = true ->
  a ++ ReadCalled x :: s = b ++ ReadCalled y :: t ->
  a = b /\ x = y /\ s = t.
Proof.
  induction a as [|e a IH]; intros b x y s t Ha Hb Heq.
  - destruct b as [|e' b]; simpl in Heq; injection Heq as He Heq.
    + subst. auto.
    + subst e'. discriminate Hb.
  - simpl in Ha. apply andb_true_iff in Ha. destruct Ha as [He Ha].
    destruct b as [|e' b]; simpl in Heq; injection Heq as Hee Heq.
    + subst e. discriminate He.
    + subst e'. simpl in Hb. apply andb_true_iff in Hb.
      destruct Hb as [_ Hb].
      destruct (IH b x y s t Ha Hb Heq) as [-> [-> ->]]. auto.
Qed.

Lemma scheduleReadRequest_cons opts rd rest q :
  scheduleReadRequest handler writeResponse originalOpts opts (rd :: rest) q =
  match processRequest handler writeResponse originalOpts opts rd q with
  | (tr, Returned (Some v, q')) =>
      let '(tr', e) :=
        scheduleReadRequest handler writeResponse originalOpts v rest q' in
      (tr ++ tr', e)
  | (tr, Returned (None, _)) => (tr, Stopped)
  | (tr, Thrown _) => (tr ++ [ConnClosed], Closed)
  | (tr, Stuck) => (tr, Waiting)
  end.
Proof. reflexivity. Qed.

Lemma scheduleReadRequest_head conn opts q :
  exists tail,
    fst (scheduleReadRequest handler writeResponse originalOpts opts conn q)
    = ReadCalled opts :: tail.
Proof.
  destruct conn as [|rd rest].
  - destruct (processRequest_one_read opts silent q) as [c [Hc _]].
    exists c. exact Hc.
  - rewrite scheduleReadRequest_cons.
    destruct (processRequest_one_read opts rd q) as [c [Hc _]].
    destruct (processRequest handler writeResponse originalOpts opts rd q)
      as [tr [[[v|] q']| |]]; simpl in Hc; subst tr.
    + destruct (scheduleReadRequest handler writeResponse originalOpts v rest q')
        as [tr' e]. eexists. reflexivity.
    + eexists. reflexivity.
    + eexists. reflexivity.
    + eexists. reflexivity.
Qed.

(** From any of its reads on, a session is the session that starts with
    that read on what is left of the connection. *)
Lemma session_suffix conn : forall opts pre o post e,
  scheduleReadRequest handler writeResponse originalOpts opts conn []
  = (pre ++ ReadCalled o :: post, e) ->
  exists conn',
    scheduleReadRequest handler writeResponse originalOpts o conn' []
    = (ReadCalled o :: post, e).
Proof.
  induction conn as [|rd rest IH]; intros opts pre o post e Hs.
  - destruct pre as [|x pre].
    + simpl in Hs. injection Hs as Ho Hp He. subst. exists []. reflexivity.
    + simpl in Hs. injection Hs as _ Hp _. destruct pre; discriminate Hp.
  - destruct pre as [|x pre].
    + destruct (scheduleReadRequest_head (rd :: rest) opts []) as [tail Hh].
      rewrite Hs in Hh. simpl in Hh. injection Hh as Ho _. subst o.
      exists (rd :: rest). exact Hs.
    + rewrite scheduleReadRequest_cons in Hs.
      destruct (processRequest_one_read opts rd []) as [c [Hc Hq]].
      destruct (processRequest handler writeResponse originalOpts opts rd [])
        as [tr [[[v|] q']| |]] eqn:Hp; simpl in Hc; subst tr.
      * destruct (processRequest_returns _ _ _ _ _ Hp) as [_ [_ [_ [_ ->]]]].
        destruct (scheduleReadRequest handler writeResponse originalOpts v rest [])
          as [tr' e'] eqn:Hrest.
        injection Hs as _ Hs He. subst e'.
        destruct (split_after_quiet c _ _ _ _ Hq Hs) as [p' [-> ->]].
        apply (IH v p' o post e). exact Hrest.
      * injection Hs as _ Hs _.
        exfalso. apply (no_read_In c o Hq). rewrite Hs.
        apply in_or_app. right. left. reflexivity.
      * injection Hs as _ Hs _.
        assert (Hq' : no_read (c ++ [ConnClosed]) = true)
          by (rewrite no_read_app, Hq; reflexivity).
        exfalso. apply (no_read_In _ o Hq'). rewrite Hs.
        apply in_or_app. right. left. reflexivity.
      * injection Hs as _ Hs _.
        exfalso. apply (no_read_In c o Hq). rewrite Hs.
        apply in_or_app. right. left. reflexivity.
Qed.

(** What lies between two consecutive reads of a session is one whole
    run of [processRequest], which returned the options of the second
    read. *)
Lemma consecutive_reads conn opts pre o1 mid o2 post e :
  scheduleReadRequest handler writeResponse originalOpts opts conn []
  = (pre ++ ReadCalled o1 :: mid ++ ReadCalled o2 :: post, e) ->
  no_read mid = true ->
  exists rd,
    processRequest handler writeResponse originalOpts o1 rd []
    = (ReadCalled o1 :: mid, Returned (Some o2, [])).
Proof.
  intros Hs Hmid.
  destruct (session_suffix conn _ _ _ _ _ Hs) as [conn' Hs'].
  assert (Hquiet : forall c,
             no_read c = true -> c = mid ++ ReadCalled o2 :: post -> False).
  { intros c Hc Heq. apply (no_read_In _ o2 Hc). rewrite Heq.
    apply in_or_app. right. left. reflexivity. }
  destruct conn' as [|rd rest].
  - simpl in Hs'. injection Hs' as Hp _. destruct mid; discriminate Hp.
  - rewrite scheduleReadRequest_cons in Hs'.
    destruct (processRequest_one_read o1 rd []) as [c [Hc Hq]].
    destruct (processRequest handler writeResponse originalOpts o1 rd [])
      as [tr [[[v|] q']| |]] eqn:Hp; simpl in Hc; subst tr.
    + destruct (processRequest_returns _ _ _ _ _ Hp) as [_ [_ [_ [_ ->]]]].
      destruct (scheduleReadRequest_head rest v []) as [tail Hh].
      destruct (scheduleReadRequest handler writeResponse originalOpts v rest [])
        as [tr' e'] eqn:Hrest.
      simpl in Hh. subst tr'. injection Hs' as Heq _.
      destruct (first_read_unique _ _ _ _ _ _ Hq Hmid Heq) as [-> [-> _]].
      exists rd. exact Hp.
    + injection Hs' as Heq _. destruct (Hquiet c Hq Heq).
    + injection Hs' as Heq _. exfalso.
      apply (Hquiet (c ++ [ConnClosed])); auto.
      rewrite no_read_app, Hq. reflexivity.
    + injection Hs' as Heq _. destruct (Hquiet c Hq Heq).
Qed.

(** ** One cycle, read by read *)

Lemma handler_events_returned req :
  In HandlerReturned (handler_events handler req).
Proof.
  unfold handler_events.
  destruct (responds (handler (served req))); simpl; auto.
  destruct (awaits_respond (handler (served req))); simpl; auto.
Qed.

Lemma handler_events_enqueued req resp :
  responds (handler (served req)) = Some resp ->
  In (Queue (WaitQueue.Enqueued resp)) (handler_events handler req).
Proof.
  unfold handler_events. intros ->.
  destruct (awaits_respond (handler (served req))); simpl; auto.
Qed.

Lemma handler_events_flushed req resp :
  In (Queue (WaitQueue.Enqueued resp)) (handler_events handler req) ->
  In (Queue (WaitQueue.WriteEnd resp true)) (handler_events handler req).
Proof.
  unfold handler_events.
  destruct (responds (handler (served req))) as [r|]; simpl.
  - destruct (awaits_respond (handler (served req))); simpl;
      intros [H|[H|[H|[H|[]]]]]; try discriminate H;
      injection H as ->; auto.
  - intros [H|[]]. discriminate H.
Qed.

Lemma handler_events_open req :
  ~ In ConnClosed (handler_events handler req) /\
  forall o, ~ In (ReadCalled o) (handler_events handler req).
Proof.
  unfold handler_events.
  destruct (responds (handler (served req))) as [r|]; simpl.
  - destruct (awaits_respond (handler (served req))); simpl;
      (split; [|intros o]); intros H;
      repeat (destruct H as [H|H]; [discriminate H|]); exact H.
  - (split; [|intros o]); intros H;
      repeat (destruct H as [H|H]; [discriminate H|]); exact H.
Qed.

(** A cycle either calls the handler right after its read, or ends at
    its read: the read fails or hangs, or the url is malformed. *)
Lemma processRequest_shape opts rd q :
  (exists req t,
      rd opts = Resolved req /\ String.prefix "/" (url req) = true /\
      fst (processRequest handler writeResponse originalOpts opts rd q)
      = ReadCalled opts :: HandlerCalled (served req) :: t) \/
  (exists out,
      processRequest handler writeResponse originalOpts opts rd q
      = ([ReadCalled opts], out) /\
      match out with
      | Returned _ => False
      | _ => True
      end).
Proof.
  unfold processRequest, match_slash.
  destruct (rd opts) as [req| |] eqn:Hrd.
  - destruct (String.prefix "/" (url req)) eqn:Hurl.
    + left. exists req.
      rewrite fst_bind_emit, bind_await_resolved, Hurl.
      fold (served req).
      match goal with
      | |- context [bind (call_handler _ _ _) ?k q] =>
          destruct (fst_bind_prefix
                      (call_handler handler writeResponse (served req)) k q)
            as [t Ht]
      end.
      rewrite Ht. unfold call_handler. rewrite fst_bind_emit.
      eexists. repeat split; auto.
    + right. unfold bind, emit, await, throw. rewrite Hurl.
      eexists. split; [reflexivity | exact I].
  - right. eexists. split; [reflexivity | exact I].
  - right. eexists. split; [reflexivity | exact I].
Qed.

(** Every call of the handler in a session opens a cycle of that
    session: the request was read, its url begins with a slash, and from
    the read on the session is [scheduleReadRequest] on what is left of
    the connection. *)
Lemma session_cycle conn opts pre o sreq post e :
  scheduleReadRequest handler writeResponse originalOpts opts conn []
  = (pre ++ ReadCalled o :: HandlerCalled sreq :: post, e) ->
  exists rd rest req,
    rd o = Resolved req /\ String.prefix "/" (url req) = true /\
    sreq = served req /\
    scheduleReadRequest handler writeResponse originalOpts o (rd :: rest) []
    = (ReadCalled o :: HandlerCalled sreq :: post, e).
Proof.
  intros Hs. destruct (session_suffix conn _ _ _ _ _ Hs) as [conn' Hs'].
  destruct conn' as [|rd rest]; [discriminate Hs'|].
  exists rd, rest.
  pose proof Hs' as Hc. rewrite scheduleReadRequest_cons in Hc.
  destruct (processRequest_shape o rd []) as [[req [t [Hrd [Hurl Ht]]]] | [out [Hp Hout]]].
  - exists req. repeat split; auto.
    destruct (processRequest handler writeResponse originalOpts o rd [])
      as [tr [[[v|] q']| |]]; simpl in Ht; subst tr.
    + destruct (scheduleReadRequest handler writeResponse originalOpts v rest q').
      simpl in Hc. inversion Hc. reflexivity.
    + simpl in Hc. inversion Hc. reflexivity.
    + simpl in Hc. inversion Hc. reflexivity.
    + simpl in Hc. inversion Hc. reflexivity.
  - rewrite Hp in Hc. destruct out as [[]| |]; [destruct Hout| |];
      discriminate Hc.
Qed.

(** ** The decision at the end of a cycle *)

Lemma not_101 run :
  (forall resp, responds run = Some resp -> status resp <> Num 101) ->
  is_number (respondedStatus run) 101 = false.
Proof.
  unfold respondedStatus. intros H.
  destruct (responds run) as [resp|]; [|reflexivity]. simpl.
  specialize (H resp eq_refl).
  destruct (status resp) as [|z]; [reflexivity|]. simpl.
  apply Z.eqb_neq. intros ->. apply H. reflexivity.
Qed.


Lemma decide_budget opts req st ka m q :
  is_number st 101 = false ->
  keepAlive req = Some ka -> max ka = Num m -> m <= 0 ->
  decide_continue originalOpts opts req st q
  = ([], Thrown "keep-alive ended").
Proof.
  intros H101 Hka Hm Hle. unfold decide_continue.
  rewrite H101, Hka, Hm. simpl.
  apply Z.leb_le in Hle. rewrite Hle. reflexivity.
Qed.


Lemma decide_returns opts req st q v q' :
  snd (decide_continue originalOpts opts req st q) = Returned (Some v, q') ->
  keepAliveTimeout v =
    match keepAlive req with
    | Some ka =>
        Some (Math_min (ToNumber (keepAliveTimeout originalOpts))
                       (number_mul (timeout ka) (Num 1000)))
    | None => keepAliveTimeout originalOpts
    end /\
  readTimeout v = readTimeout opts /\ cancel v = cancel opts.
Proof.
  unfold decide_continue.
  destruct (is_number st 101); [discriminate|].
  destruct (match keepAlive req with
            | Some ka => number_le (max ka) (Num 0)
            | None => false
            end); [discriminate|].
  destruct (is_string _ _); [discriminate|].
  simpl. intros H. injection H as <- _. auto.
Qed.

(** ** How a session ends *)


Lemma scheduleReadRequest_closes opts rd rest tr e q :
  processRequest handler writeResponse originalOpts opts rd q
  = (tr, Thrown e) ->
  scheduleReadRequest handler writeResponse originalOpts opts (rd :: rest) q
  = (tr ++ [ConnClosed], Closed).
Proof. intros H. rewrite scheduleReadRequest_cons, H. reflexivity. Qed.

(** ** The session and its dispatch queue *)

Lemma queue_events_app a b :
  queue_events (a ++ b) = queue_events a ++ queue_events b.
Proof. apply flat_map_app. Qed.

Lemma queue_events_map l : queue_events (map Queue l) = l.
Proof.
  induction l as [|e l IH]; [reflexivity|]. simpl. rewrite IH. reflexivity.
Qed.

Lemma run_from_app {T} (st : list (WaitQueue.Event T) * WaitQueue.queue T) a b :
  WaitQueue.run_from st (a ++ b)
  = WaitQueue.run_from (WaitQueue.run_from st a) b.
Proof. apply fold_left_app. Qed.

Lemma run_from_trace {T} (ins : list (WaitQueue.Input T)) : forall tr q,
  WaitQueue.run_from (tr, q) ins
  = (tr ++ fst (WaitQueue.run_from ([], q) ins),
     snd (WaitQueue.run_from ([], q) ins)).
Proof.
  induction ins as [|i ins IH]; intros tr q.
  - simpl. rewrite app_nil_r. reflexivity.
  - change (WaitQueue.run_from (tr, q) (i :: ins))
      with (WaitQueue.run_from
              (let '(ev, q') := WaitQueue.step i q in (tr ++ ev, q')) ins).
    change (WaitQueue.run_from ([], q) (i :: ins))
      with (WaitQueue.run_from
              (let '(ev, q') := WaitQueue.step i q in ([] ++ ev, q')) ins).
    destruct (WaitQueue.step i q) as [ev q'].
    rewrite (IH (tr ++ ev)), (IH ([] ++ ev)). simpl.
    rewrite app_assoc. reflexivity.
Qed.

Lemma tracks_quiet {A} (m : Task A) :
  (forall q, exists o, m q = ([], o) /\
                       match o with
                       | Returned (_, q') => q' = q
                       | _ => True
                       end) ->
  tracks m.
Proof.
  intros H q. exists []. destruct (H q) as [o [-> Ho]]. simpl.
  split; [reflexivity|]. destruct o as [[a q']| |]; auto.
Qed.

Lemma tracks_ret {A} (a : A) : tracks (ret a).
Proof. apply tracks_quiet. intros q. eexists. split; reflexivity. Qed.

Lemma tracks_throw {A} e : tracks (@throw A e).
Proof. apply tracks_quiet. intros q. eexists. split; [reflexivity|exact I]. Qed.

Lemma tracks_await {A} (s : Settle A) : tracks (await s).
Proof.
  apply tracks_quiet. intros q.
  destruct s; eexists; (split; [reflexivity|]); simpl; auto.
Qed.

Lemma tracks_emit e : queue_events [e] = [] -> tracks (emit e).
Proof.
  intros He q. exists []. simpl. simpl in He. rewrite He. auto.
Qed.

Lemma tracks_bind {A B} (m : Task A) (k : A -> Task B) :
  tracks m -> (forall a, tracks (k a)) -> tracks (bind m k).
Proof.
  intros Hm Hk q. destruct (Hm q) as [ins1 [H1 H1']]. unfold bind.
  destruct (m q) as [tr [[a q']| |]]; simpl in *.
  - destruct (Hk a q') as [ins2 [H2 H2']].
    destruct (k a q') as [tr' o]. simpl in *.
    exists (ins1 ++ ins2). rewrite run_from_app.
    destruct (WaitQueue.run_from ([], q) ins1) as [ev1 q1]. simpl in *.
    subst. rewrite run_from_trace. simpl.
    rewrite queue_events_app, H2. split; [reflexivity | exact H2'].
  - exists ins1. auto.
  - exists ins1. auto.
Qed.

Lemma tracks_q_enqueue resp : tracks (q_enqueue resp).
Proof.
  intros q. exists [WaitQueue.Submit resp]. unfold q_enqueue.
  change (WaitQueue.run_from ([], q) [WaitQueue.Submit resp])
    with (let '(ev, q') := WaitQueue.enqueue resp q in ([] ++ ev, q')).
  destruct (WaitQueue.enqueue resp q) as [ev q']. simpl.
  rewrite queue_events_map. auto.
Qed.

Lemma drain_tracks q :
  exists ins,
    fst (WaitQueue.run_from ([], q) ins)
    = queue_events (fst (drain writeResponse q)) /\
    match snd (drain writeResponse q) with
    | Pending => True
    | _ => snd (WaitQueue.run_from ([], q) ins) = []
    end.
Proof.
  induction q as [|resp rest IH].
  - exists []. simpl. auto.
  - destruct IH as [ins [H1 H2]]. cbn [drain].
    destruct (writeResponse resp) as [[]|err|].
    + exists (WaitQueue.WriteDone true :: ins).
      change (WaitQueue.run_from ([], resp :: rest) (WaitQueue.WriteDone true :: ins))
        with (WaitQueue.run_from
                ([] ++ fst (WaitQueue.dequeue true (resp :: rest)), rest) ins).
      rewrite run_from_trace.
      destruct (drain writeResponse rest) as [tr s].
      cbv beta iota zeta delta [fst snd] in *.
      rewrite queue_events_app, queue_events_map, H1.
      split; [reflexivity|]. exact H2.
    + destruct rest as [|n rest].
      * exists [WaitQueue.WriteDone false]. simpl. auto.
      * exists (WaitQueue.WriteDone false :: ins).
        change (WaitQueue.run_from ([], resp :: n :: rest)
                  (WaitQueue.WriteDone false :: ins))
          with (WaitQueue.run_from
                  ([] ++ fst (WaitQueue.dequeue false (resp :: n :: rest)),
                   n :: rest) ins).
        rewrite run_from_trace.
        destruct (drain writeResponse (n :: rest)) as [tr s].
        cbv beta iota zeta delta [fst snd] in *.
        rewrite queue_events_app, queue_events_map, H1.
        split; [reflexivity|]. exact H2.
    + exists []. simpl. auto.
Qed.

Lemma tracks_settle_responded : tracks (settle_responded writeResponse).
Proof.
  intros q. destruct (drain_tracks q) as [ins [H1 H2]]. exists ins.
  unfold settle_responded.
  destruct (drain writeResponse q) as [tr [[]|err|]]; simpl in *; auto.
Qed.

Lemma tracks_call_handler req :
  tracks (call_handler handler writeResponse req).
Proof.
  unfold call_handler, onResponse.
  apply tracks_bind; [apply tracks_emit; reflexivity|]. intros _.
  apply tracks_bind.
  - destruct (responds (handler req)); [|apply tracks_ret].
    apply tracks_bind.
    + apply tracks_bind; [apply tracks_q_enqueue | intros; apply tracks_ret].
    + intros r. destruct (awaits_respond (handler req));
        [apply tracks_settle_responded | apply tracks_ret].
  - intros r. apply tracks_bind; [apply tracks_await|]. intros _.
    apply tracks_bind;
      [apply tracks_emit; reflexivity | intros; apply tracks_ret].
Qed.

Lemma tracks_processRequest opts rd :
  tracks (processRequest handler writeResponse originalOpts opts rd).
Proof.
  unfold processRequest.
  apply tracks_bind; [apply tracks_emit; reflexivity|]. intros _.
  apply tracks_bind; [apply tracks_await|]. intros req.
  destruct (match_slash (url req)); [|apply tracks_throw].
  apply tracks_bind; [apply tracks_call_handler|]. intros r.
  apply tracks_bind.
  { destruct r; [apply tracks_ret | apply tracks_throw |].
    apply tracks_bind; [apply tracks_settle_responded|].
    intros [| |]; [apply tracks_ret | apply tracks_throw | apply tracks_ret]. }
  intros _. apply tracks_bind; [apply tracks_await|]. intros _.
  apply tracks_bind; [apply tracks_emit; reflexivity|]. intros _.
  apply tracks_quiet. apply decide_continue_queue.
Qed.

(** The queue events of a session are those of its dispatch queue under
    some succession of submissions and write completions. *)
Lemma scheduleReadRequest_tracks conn : forall opts q,
  exists ins,
    fst (WaitQueue.run_from ([], q) ins)
    = queue_events
        (fst (scheduleReadRequest handler writeResponse originalOpts opts conn q)).
Proof.
  induction conn as [|rd rest IH]; intros opts q.
  - destruct (tracks_processRequest opts silent q) as [ins [H _]].
    exists ins. exact H.
  - rewrite scheduleReadRequest_cons.
    destruct (tracks_processRequest opts rd q) as [ins [H1 H2]].
    destruct (processRequest handler writeResponse originalOpts opts rd q)
      as [tr [[[v|] q']| |]]; simpl in *.
    + destruct (IH v q') as [ins' H'].
      destruct (scheduleReadRequest handler writeResponse originalOpts v rest q')
        as [tr' e]. simpl in *.
      exists (ins ++ ins'). rewrite run_from_app.
      destruct (WaitQueue.run_from ([], q) ins) as [ev1 q1]. simpl in *.
      subst. rewrite run_from_trace. simpl.
      rewrite queue_events_app, H'. reflexivity.
    + exists ins. exact H1.
    + exists ins. rewrite queue_events_app. simpl. rewrite app_nil_r. exact H1.
    + exists ins. exact H1.
Qed.

(** [conn.close()] is the last thing a session does, if it does it at
    all. *)
Lemma session_closes_last conn : forall opts q tr e,
  scheduleReadRequest handler writeResponse originalOpts opts conn q = (tr, e) ->
  match e with
  | Closed => exists tr', tr = tr' ++ [ConnClosed] /\ without is_close tr' = true
  | _ => without is_close tr = true
  end.
Proof.
  induction conn as [|rd rest IH]; intros opts q tr e Hs.
  - simpl in Hs. injection Hs as <- <-. reflexivity.
  - rewrite scheduleReadRequest_cons in Hs.
    pose proof (processRequest_never_closes opts rd q) as Hc.
    destruct (processRequest handler writeResponse originalOpts opts rd q)
      as [tr1 [[[v|] q']| |]]; simpl in Hc.
    + destruct (scheduleReadRequest handler writeResponse originalOpts v rest q')
        as [tr' e'] eqn:Hrest.
      injection Hs as <- <-. specialize (IH _ _ _ _ Hrest).
      destruct e'.
      * destruct IH as [tr'' [-> Hw]]. exists (tr1 ++ tr'').
        split; [apply app_assoc|]. rewrite without_app, Hc, Hw. reflexivity.
      * rewrite without_app, Hc, IH. reflexivity.
      * rewrite without_app, Hc, IH. reflexivity.
    + injection Hs as <- <-. exact Hc.
    + injection Hs as <- <-. exists tr1. auto.
    + injection Hs as <- <-. exact Hc.
Qed.


(** A cycle that runs to its end and then throws: the session closes the
    connection there. *)
Lemma cycle_throws opts rd rest req e :
  rd opts = Resolved req -> String.prefix "/" (url req) = true ->
  completes handler writeResponse req ->
  decide_continue originalOpts opts req
    (respondedStatus (handler (served req))) [] = ([], Thrown e) ->
  scheduleReadRequest handler writeResponse originalOpts opts (rd :: rest) []
  = (ReadCalled opts :: HandlerCalled (served req)
       :: handler_events handler req ++ [BodyClosed; ConnClosed],
     Closed).
Proof.
  intros Hrd Hurl Hc Hd.
  rewrite (scheduleReadRequest_closes _ _ rest
             (ReadCalled opts :: HandlerCalled (served req)
                :: handler_events handler req ++ [BodyClosed]) e).
  - simpl. rewrite <- app_assoc. reflexivity.
  - rewrite (processRequest_completes _ _ _ Hrd Hurl Hc), Hd. reflexivity.
Qed.

(** A request whose url does not begin with a slash: the cycle throws
    before it calls the handler. *)
Lemma cycle_malformed opts rd req q :
  rd opts = Resolved req -> (forall u, url req <> String "/" u) ->
  processRequest handler writeResponse originalOpts opts rd q
  = ([ReadCalled opts], Thrown "malformed url").
Proof.
  intros Hrd Hurl.
  assert (Hp : String.prefix "/" (url req) = false).
  { destruct (url req) as [|c u]; [reflexivity|].
    change (String.prefix "/" (String c u))
      with (if ascii_dec "/" c then String.prefix "" u else false).
    destruct (ascii_dec "/" c) as [<-|]; [|reflexivity].
    destruct (Hurl u). reflexivity. }
  unfold processRequest, match_slash, bind, emit, await, throw.
  rewrite Hrd, Hp. reflexivity.
Qed.

End SessionFacts.

(** ** The session as a whole *)

(** Every session uses its dispatch queue as a queue, from the empty
    queue on: its writes are those of [WaitQueue.run] on some succession
    of submissions and write completions. *)
Lemma handleKeepAliveConn_queue conn handler writeResponse opts :
  exists ins,
    queue_events (fst (handleKeepAliveConn conn handler writeResponse opts))
    = fst (WaitQueue.run ins).
Proof.
  unfold handleKeepAliveConn, WaitQueue.run.
  destruct (scheduleReadRequest_tracks handler writeResponse
              (or_default opts) conn
              {| keepAliveTimeout := readTimeout (or_default opts);
                 readTimeout := readTimeout (or_default opts);
                 cancel := cancel (or_default opts) |} []) as [ins H].
  exists ins. symmetry. exact H.
Qed.

(** Hence no two writes of a session overlap, and its writes begin in the
    order the responses were enqueued. *)
Lemma handleKeepAliveConn_writes_serialized conn handler writeResponse opts :
  WaitQueue.serialized
    (queue_events (fst (handleKeepAliveConn conn handler writeResponse opts))).
Proof.
  destruct (handleKeepAliveConn_queue conn handler writeResponse opts)
    as [ins ->].
  apply (WaitQueue.inv_serialized _ _ _ _ (WaitQueueFacts.inv_run _ ins)).
Qed.

(** C7: the first read of a fresh connection is called with the configured
    [readTimeout] in both timeout fields: its deadline is the read
    timeout, whatever the configured keep-alive timeout. *)
Theorem first_read_uses_readTimeout conn handler writeResponse opts :
  exists tail,
    fst (handleKeepAliveConn conn handler writeResponse opts) =
    ReadCalled {| cancel := cancel (or_default opts);
                  keepAliveTimeout := readTimeout (or_default opts);
                  readTimeout := readTimeout (or_default opts) |} :: tail.
Proof. unfold handleKeepAliveConn. apply scheduleReadRequest_head. Qed.


(** C3: after a cycle for a request on which the peer declared keep-alive
    with timeout [T], the next read is called with keep-alive timeout
    [min(D, T * 1000)], [D] being the configured keep-alive timeout; after
    a cycle for a request without keep-alive declaration, it is called
    with the configured keep-alive timeout itself. *)
Theorem next_read_keepAliveTimeout conn handler writeResponse opts
  pre o1 req mid o2 post :
  fst (handleKeepAliveConn conn handler writeResponse opts)
  = pre ++ ReadCalled o1 :: HandlerCalled req :: mid ++ ReadCalled o2 :: post ->
  (forall o, ~ In (ReadCalled o) mid) ->
  (forall ka T D,
      keepAlive (baseReq req) = Some ka -> timeout ka = Num T ->
      keepAliveTimeout (or_default opts) = Some (Num D) ->
      keepAliveTimeout o2 = Some (Num (Z.min D (T * 1000)))) /\
  (keepAlive (baseReq req) = None ->
   keepAliveTimeout o2 = keepAliveTimeout (or_default opts)).
Proof.
  unfold handleKeepAliveConn. intros H Hmid.
  match type of H with
  | fst ?s = _ => destruct s as [tr e] eqn:Hs
  end.
  simpl in H. subst tr.
  assert (Hmid' : no_read (HandlerCalled req :: mid) = true)
    by (apply (In_no_read mid) in Hmid; exact Hmid).
  change (ReadCalled o1 :: HandlerCalled req :: mid ++ ReadCalled o2 :: post)
    with (ReadCalled o1 :: (HandlerCalled req :: mid) ++ ReadCalled o2 :: post)
    in Hs.
  destruct (consecutive_reads _ _ _ _ _ _ _ _ _ _ _ Hs Hmid') as [rd Hp].
  destruct (processRequest_returns _ _ _ _ _ _ _ _ Hp)
    as [req0 [Hrd [Hurl [Hc _]]]].
  rewrite (processRequest_completes _ _ _ _ _ _ Hrd Hurl Hc) in Hp.
  injection Hp as Hreq _ Hdec. subst req.
  apply decide_returns in Hdec. destruct Hdec as [Hk _]. simpl baseReq.
  split.
  - intros ka T D Hka HT HD. rewrite Hk, Hka, HD, HT. reflexivity.
  - intros Hka. rewrite Hk, Hka. reflexivity.
Qed.



(** C6: when the keep-alive declaration of a request has a budget [max]
    that is not positive, the response is not an upgrade and the cycle runs
    to its end, the session calls [conn.close()] right after closing the
    body and reads nothing more. *)
Theorem keepAlive_budget_closes conn handler writeResponse opts
  pre o req post e ka m :
  handleKeepAliveConn conn handler writeResponse opts
  = (pre ++ ReadCalled o :: HandlerCalled req :: post, e) ->
  keepAlive (baseReq req) = Some ka -> max ka = Num m -> m <= 0 ->
  (forall resp, responds (handler req) = Some resp -> status resp <> Num 101) ->
  returns (handler req) = Resolved tt ->
  (forall resp, responds (handler req) = Some resp ->
                writeResponse resp = Resolved tt) ->
  close (body (baseReq req)) = Resolved tt ->
  e = Closed /\
  exists k,
    post = k ++ [BodyClosed; ConnClosed] /\
    (forall resp, responds (handler req) = Some resp ->
                  In (Queue (WaitQueue.WriteEnd resp true)) k) /\
    (forall o', ~ In (ReadCalled o') k).
Proof.
  unfold handleKeepAliveConn. intros Hs Hka Hm Hle H101 Hret Hw Hclose.
  destruct (session_cycle _ _ _ _ _ _ _ _ _ _ Hs)
    as [rd [rest [req0 [Hrd [Hurl [-> Hc]]]]]].
  assert (Hcomp : completes handler writeResponse req0) by (split; auto).
  pose proof (decide_budget (or_default opts) o req0
                (respondedStatus (handler (served req0))) ka m []
                (not_101 _ H101) Hka Hm Hle) as Hd.
  rewrite (cycle_throws _ _ _ _ _ rest _ _ Hrd Hurl Hcomp Hd) in Hc.
  injection Hc as <- <-.
  split; [reflexivity|].
  exists (handler_events handler req0). split; [reflexivity|].
  split.
  - intros resp Hr. apply handler_events_flushed, handler_events_enqueued.
    exact Hr.
  - apply handler_events_open.
Qed.

(** C10: when a read yields a request whose url does not begin with "/",
    [processRequest] throws "malformed url" with the read as its only
    event, and the session calls [conn.close()] and ends: the handler is
    not called for that request, and nothing further is read. *)
Theorem malformed_url_closes handler writeResponse originalOpts
  opts rd rest q req :
  rd opts = Resolved req ->
  (forall u, url req <> String "/" u) ->
  processRequest handler writeResponse originalOpts opts rd q
  = ([ReadCalled opts], Thrown "malformed url") /\
  scheduleReadRequest handler writeResponse originalOpts opts (rd :: rest) q
  = ([ReadCalled opts; ConnClosed], Closed).
Proof.
  intros Hrd Hurl.
  pose proof (cycle_malformed handler writeResponse originalOpts
                opts rd req q Hrd Hurl) as Hp.
  split; [exact Hp|].
  exact (scheduleReadRequest_closes handler writeResponse originalOpts
           opts rd rest [ReadCalled opts] "malformed url" q Hp).
Qed.

(** ** The theorems at the sample session *)

Lemma next_read_keepAliveTimeout_witness :
  keepAliveTimeout Sample.second_read = Some (Num (Z.min 75000 (5 * 1000))).
Proof.
  refine (proj1 (next_read_keepAliveTimeout
           (Sample.reads [Sample.get_a; Sample.get_b])
           Sample.handler Sample.writeResponse (Some Sample.opts)
           [] Sample.first_read (served Sample.get_a)
           (handler_events Sample.handler Sample.get_a ++ [BodyClosed])
           Sample.second_read
           (HandlerCalled (served Sample.get_b)
              :: handler_events Sample.handler Sample.get_b
              ++ [BodyClosed; ConnClosed]) _ _)
          {| timeout := Num 5; max := Num 3 |} 5 75000 _ _ _).
  - vm_compute. reflexivity.
  - intros o H. vm_compute in H.
    repeat (destruct H as [H|H]; [discriminate H|]). exact H.
  - reflexivity.
  - reflexivity.
  - reflexivity.
Defined.



Lemma keepAlive_budget_closes_witness :
  Closed = Closed /\
  exists k,
    handler_events Sample.handler Sample.get_last ++ [BodyClosed; ConnClosed]
    = k ++ [BodyClosed; ConnClosed] /\
    (forall resp, responds (Sample.handler (served Sample.get_last)) = Some resp ->
                  In (Queue (WaitQueue.WriteEnd resp true)) k) /\
    (forall o', ~ In (ReadCalled o') k).
Proof.
  apply (keepAlive_budget_closes
           (Sample.reads [Sample.get_last; Sample.get_a])
           Sample.handler Sample.writeResponse (Some Sample.opts)
           [] Sample.first_read (served Sample.get_last)
           (handler_events Sample.handler Sample.get_last
              ++ [BodyClosed; ConnClosed])
           Closed {| timeout := Num 5; max := Num 0 |} 0).
  - vm_compute. reflexivity.
  - reflexivity.
  - reflexivity.
  - lia.
  - intros resp H. vm_compute in H. injection H as <-. discriminate.
  - reflexivity.
  - intros resp _. reflexivity.
  - reflexivity.
Defined.

Lemma malformed_url_closes_witness :
  processRequest Sample.handler Sample.writeResponse Sample.opts
    Sample.first_read (fun _ => Resolved Sample.get_malformed) []
  = ([ReadCalled Sample.first_read], Thrown "malformed url") /\
  scheduleReadRequest Sample.handler Sample.writeResponse Sample.opts
    Sample.first_read
    ((fun _ => Resolved Sample.get_malformed) :: Sample.reads [Sample.get_a]) []
  = ([ReadCalled Sample.first_read; ConnClosed], Closed).
Proof.
  apply (malformed_url_closes Sample.handler Sample.writeResponse Sample.opts
           Sample.first_read (fun _ => Resolved Sample.get_malformed)
           (Sample.reads [Sample.get_a]) [] Sample.get_malformed).
  - reflexivity.
  - intros u H. discriminate H.
Defined.

(** ** Properties of the listener supervisor *)

Module SupervisorFacts.
Import Supervisor.

Section Facts.
Variable opts : ServeOptions.

Lemma socket_closes_app a b :
  socket_closes (a ++ b) = (socket_closes a + socket_closes b)%nat.
Proof. unfold socket_closes. rewrite filter_app. apply length_app. Qed.

Lemma signal_resolves_app a b :
  signal_resolves (a ++ b) = (signal_resolves a + signal_resolves b)%nat.
Proof. unfold signal_resolves. rewrite filter_app. apply length_app. Qed.

Lemma run_app ins1 ins2 s :
  run opts (ins1 ++ ins2) s =
  let '(ev1, s1) := run opts ins1 s in
  let '(ev2, s2) := run opts ins2 s1 in
  (ev1 ++ ev2, s2).
Proof.
  revert s. induction ins1 as [|i ins1 IH]; intros s; simpl.
  - destruct (run opts ins2 s). reflexivity.
  - destruct (step opts i s) as [ev s1]. rewrite IH.
    destruct (run opts ins1 s1) as [ev1 s2].
    destruct (run opts ins2 s2) as [ev2 s3].
    rewrite app_assoc. reflexivity.
Qed.

(** Once closed, with no accept pending, nothing happens any more. *)
Lemma step_closed i s :
  closed s = true -> accepting s = false ->
  fst (step opts i s) = [] /\
  closed (snd (step opts i s)) = true /\
  accepting (snd (step opts i s)) = false.
Proof.
  intros Hc Ha. destruct s as [c d x a]. simpl in *. subst.
  destruct i; simpl; auto.
Qed.

Lemma run_closed ins : forall s,
  closed s = true -> accepting s = false -> fst (run opts ins s) = [].
Proof.
  induction ins as [|i ins IH]; intros s Hc Ha; simpl; [reflexivity|].
  destruct (step_closed i s Hc Ha) as [Hev [Hc' Ha']].
  destruct (step opts i s) as [ev s1]. simpl in *. subst ev.
  specialize (IH s1 Hc' Ha').
  destruct (run opts ins s1) as [ev' s2]. simpl in *. exact IH.
Qed.

Lemma step_inv tr s i :
  inv opts tr s ->
  inv opts (tr ++ fst (step opts i s)) (snd (step opts i s)).
Proof.
  unfold inv. destruct s as [c d x a]. simpl.
  destruct c.
  - intros [-> [H1 H2]]. destruct i; simpl; rewrite app_nil_r; auto.
  - intros [-> [Hcan [H1 H2]]].
    unfold cancelled in Hcan. simpl in Hcan.
    destruct i as [| |r]; simpl.
    + unfold settle_accept, cancelled, throwIfCancelled. simpl.
      destruct (cancel opts); simpl;
        rewrite ?orb_true_r; simpl;
        rewrite socket_closes_app, signal_resolves_app, H1, H2; auto.
    + unfold settle_accept, cancelled, throwIfCancelled. simpl.
      destruct (cancel opts); simpl.
      * rewrite socket_closes_app, signal_resolves_app, H1, H2; auto.
      * rewrite Hcan. simpl. rewrite app_nil_r.
        unfold cancelled. simpl. auto.
    + unfold settle_accept, cancelled, throwIfCancelled. simpl.
      rewrite Hcan.
      destruct r as [conn|err|]; simpl.
      * unfold cancelled. simpl. rewrite Hcan.
        rewrite socket_closes_app, signal_resolves_app, H1, H2; auto.
      * rewrite socket_closes_app, signal_resolves_app, H1, H2; auto.
      * rewrite app_nil_r. unfold cancelled. simpl. auto.
Qed.

Lemma run_inv ins : forall tr s,
  inv opts tr s ->
  inv opts (tr ++ fst (run opts ins s)) (snd (run opts ins s)).
Proof.
  induction ins as [|i ins IH]; intros tr s H; simpl.
  - rewrite app_nil_r. exact H.
  - pose proof (step_inv tr s i H) as Hstep.
    destruct (step opts i s) as [ev s1]. simpl in Hstep.
    specialize (IH _ _ Hstep).
    destruct (run opts ins s1) as [ev' s2]. simpl in *.
    rewrite app_assoc. exact IH.
Qed.

(** A call of [close()], or the caller's cancel promise resolving, leaves
    the supervisor closed, and causes at most the one resolution of the
    deferred and the one closing of the socket. *)
Lemma step_closes tr s i :
  inv opts tr s ->
  i = CallClose \/ (i = CancelResolves /\ cancel opts <> None) ->
  closed (snd (step opts i s)) = true /\
  (fst (step opts i s) = [] \/ fst (step opts i s) = [ResolveD; ListenerClose]).
Proof.
  unfold inv. destruct s as [c d x a]. simpl.
  destruct c.
  - intros [-> _] [-> | [-> _]]; simpl; auto.
  - intros [-> [Hcan _]] [-> | [-> Hsome]].
    + unfold step, close_, settle_accept, cancelled, throwIfCancelled. simpl.
      destruct (cancel opts); simpl; rewrite ?orb_true_r; simpl; auto.
    + unfold step, close_, settle_accept, cancelled, throwIfCancelled. simpl.
      destruct (cancel opts) as [c|]; [|destruct Hsome; reflexivity].
      simpl. auto.
Qed.

End Facts.

Lemma listenInternal_eq opts ins :
  listenInternal opts ins =
  let '(ev, s) :=
    run (or_default opts) ins
      {| closed := false; d_resolved := false;
         external_resolved := false; accepting := true |} in
  (Accept :: ev, s).
Proof.
  unfold listenInternal. simpl.
  destruct (run (or_default opts) ins _) as [ev s]. reflexivity.
Qed.

Lemma listenInternal_inv opts ins :
  inv (or_default opts) (fst (listenInternal opts ins))
      (snd (listenInternal opts ins)).
Proof.
  rewrite listenInternal_eq.
  pose proof (run_inv (or_default opts) ins [Accept]
                {| closed := false; d_resolved := false;
                   external_resolved := false; accepting := true |}) as H.
  destruct (run (or_default opts) ins _) as [ev s]. simpl in *.
  apply H. unfold inv, cancelled. simpl.
  destruct (cancel (or_default opts)); auto.
Qed.

Lemma listenInternal_app opts ins1 ins2 :
  listenInternal opts (ins1 ++ ins2) =
  let '(ev1, s1) := listenInternal opts ins1 in
  let '(ev2, s2) := run (or_default opts) ins2 s1 in
  (ev1 ++ ev2, s2).
Proof.
  rewrite !listenInternal_eq, run_app.
  destruct (run (or_default opts) ins1 _) as [ev1 s1].
  destruct (run (or_default opts) ins2 s1) as [ev2 s2]. reflexivity.
Qed.

(** C8: after [close()] is called, or after the caller's cancel promise
    resolves, the supervisor is closed; that step causes nothing but (at
    most) the one resolution of the deferred and the one closing of the
    socket; whatever happens afterwards, another [close()] included, causes
    no event at all, so no accept is scheduled and no connection served;
    and the whole run resolves the deferred once and closes the socket
    once. *)
Theorem close_is_final_and_idempotent opts before i after :
  i = CallClose \/ (i = CancelResolves /\ cancel (or_default opts) <> None) ->
  closed (snd (listenInternal opts (before ++ [i]))) = true /\
  (exists ev,
      fst (listenInternal opts (before ++ [i]))
      = fst (listenInternal opts before) ++ ev /\
      (ev = [] \/ ev = [ResolveD; ListenerClose])) /\
  fst (listenInternal opts (before ++ i :: after))
  = fst (listenInternal opts (before ++ [i])) /\
  socket_closes (fst (listenInternal opts (before ++ i :: after))) = 1%nat /\
  signal_resolves (fst (listenInternal opts (before ++ i :: after))) = 1%nat.
Proof.
  intros Hi.
  pose proof (listenInternal_inv opts before) as Hb.
  pose proof (listenInternal_inv opts (before ++ [i])) as Hbi.
  pose proof (listenInternal_app opts before [i]) as E1.
  pose proof (listenInternal_app opts (before ++ [i]) after) as E2.
  rewrite <- app_assoc in E2. simpl in E2.
  destruct (listenInternal opts before) as [tr0 s0].
  simpl in E1. simpl in Hb.
  destruct (step_closes (or_default opts) tr0 s0 i Hb Hi) as [Hc Hev].
  destruct (step (or_default opts) i s0) as [ev s1]. simpl in Hc, Hev.
  rewrite app_nil_r in E1. rewrite E1 in *. simpl in Hbi.
  unfold inv in Hbi. rewrite Hc in Hbi. destruct Hbi as [Ha [H1 H2]].
  pose proof (run_closed (or_default opts) after s1 Hc Ha) as Hafter.
  destruct (run (or_default opts) after s1) as [ev' s2]. simpl in Hafter.
  subst ev'. rewrite E2. simpl. rewrite app_nil_r.
  split; [exact Hc|]. split; [exists ev; auto|]. auto.
Qed.

(** [listenAndServe] hands every connection the options with the
    defaults filled in. *)
Lemma listenAndServe_defaults conn :
  fst (listenAndServe None [AcceptSettles (Resolved conn)])
  = [Accept;
     Serve conn {| cancel := None;
                   keepAliveTimeout := Some (Num 75000);
                   readTimeout := Some (Num 75000) |};
     Accept].
Proof. reflexivity. Qed.

(** C9, at the call [listenAndServeTls(listenOptions, handler)]: the
    connection is served with the options [{}]; no default is filled in.
    The first read of the session is called with both timeouts
    [undefined], and after a cycle on which the peer declared keep-alive
    the next read is called with the keep-alive timeout [NaN]. *)
Theorem listenAndServeTls_no_defaults conn handler writeResponse :
  fst (listenAndServeTls None [AcceptSettles (Resolved conn)])
  = [Accept; Serve conn no_options; Accept] /\
  (exists tail,
      fst (handleKeepAliveConn conn handler writeResponse (Some no_options))
      = ReadCalled {| cancel := None;
                      keepAliveTimeout := None;
                      readTimeout := None |} :: tail) /\
  fst (handleKeepAliveConn (Sample.reads [Sample.get_a])
         Sample.handler Sample.writeResponse (Some no_options))
  = ReadCalled no_options
      :: HandlerCalled (served Sample.get_a)
      :: handler_events Sample.handler Sample.get_a
      ++ [BodyClosed;
          ReadCalled {| cancel := None;
                        keepAliveTimeout := Some NaN;
                        readTimeout := None |}].
Proof.
  split; [reflexivity|]. split.
  - unfold handleKeepAliveConn. apply scheduleReadRequest_head.
  - reflexivity.
Qed.

(** [close()] called twice, with an accept settling in between, after one
    connection was served. *)
Lemma close_is_final_and_idempotent_witness :
  closed (snd (listenInternal (Some Sample.opts)
                 ([AcceptSettles (Resolved [])] ++ [CallClose]))) = true /\
  (exists ev,
      fst (listenInternal (Some Sample.opts)
             ([AcceptSettles (Resolved [])] ++ [CallClose]))
      = fst (listenInternal (Some Sample.opts) [AcceptSettles (Resolved [])])
        ++ ev /\
      (ev = [] \/ ev = [ResolveD; ListenerClose])) /\
  fst (listenInternal (Some Sample.opts)
         ([AcceptSettles (Resolved [])]
            ++ CallClose :: [AcceptSettles (Resolved []); CallClose]))
  = fst (listenInternal (Some Sample.opts)
           ([AcceptSettles (Resolved [])] ++ [CallClose])) /\
  socket_closes
    (fst (listenInternal (Some Sample.opts)
            ([AcceptSettles (Resolved [])]
               ++ CallClose :: [AcceptSettles (Resolved []); CallClose])))
  = 1%nat /\
  signal_resolves
    (fst (listenInternal (Some Sample.opts)
            ([AcceptSettles (Resolved [])]
               ++ CallClose :: [AcceptSettles (Resolved []); CallClose])))
  = 1%nat.
Proof.
  apply (close_is_final_and_idempotent (Some Sample.opts)
           [AcceptSettles (Resolved [])] CallClose
           [AcceptSettles (Resolved []); CallClose]).
  left. reflexivity.
Defined.

End SupervisorFacts.

(** ** Failures inside a cycle *)

Section CycleFailures.
Variable handler : ServeHandler.
Variable writeResponse : ServerResponse -> Settle unit.
Variable originalOpts : ServeOptions.

Ltac run_cycle :=
  cbv beta iota zeta delta
    [processRequest call_handler onResponse q_enqueue await_responded
     settle_responded match_slash bind ret throw emit await
     WaitQueue.enqueue].

(** A read that fails ends the cycle at once. *)
Lemma cycle_read_fails opts rd err q :
  rd opts = Rejected err ->
  processRequest handler writeResponse originalOpts opts rd q
  = ([ReadCalled opts], Thrown err).
Proof. intros Hrd. run_cycle. rewrite Hrd. reflexivity. Qed.

(** A handler that throws ends the cycle before the body is closed. *)
Lemma cycle_handler_throws opts rd req err :
  rd opts = Resolved req -> String.prefix "/" (url req) = true ->
  returns (handler (served req)) = Rejected err ->
  (forall resp, responds (handler (served req)) = Some resp ->
                awaits_respond (handler (served req)) = true ->
                writeResponse resp <> Pending) ->
  exists k,
    processRequest handler writeResponse originalOpts opts rd []
    = (ReadCalled opts :: HandlerCalled (served req) :: k, Thrown err) /\
    (forall e, In e k -> exists x, e = Queue x) /\
    (forall resp, responds (handler (served req)) = Some resp ->
                  In (Queue (WaitQueue.Enqueued resp)) k).
Proof.
  intros Hrd Hurl Hret Hw. run_cycle. rewrite Hrd, Hurl. cbn.
  fold (served req). rewrite Hret.
  destruct (responds (handler (served req))) as [resp|] eqn:Hresp; cbn.
  - destruct (awaits_respond (handler (served req))) eqn:Haw; cbn.
    + specialize (Hw resp eq_refl eq_refl).
      destruct (writeResponse resp) as [[]|e'|]; cbn;
        [| |destruct Hw; reflexivity];
        eexists; (split; [reflexivity|]); split;
        try (intros e [<-|[<-|[<-|[]]]]; eexists; reflexivity);
        intros r Hr; injection Hr as <-; simpl; auto.
    + eexists. split; [reflexivity|]. split.
      * intros e [<-|[<-|[]]]; eexists; reflexivity.
      * intros r Hr. injection Hr as <-. simpl. auto.
  - exists []. split; [reflexivity|]. split.
    + intros e [].
    + intros r Hr. discriminate Hr.
Qed.


(** A body whose closing fails ends the cycle there. *)
Lemma cycle_body_close_fails opts rd req err :
  rd opts = Resolved req -> String.prefix "/" (url req) = true ->
  returns (handler (served req)) = Resolved tt ->
  (forall resp, responds (handler (served req)) = Some resp ->
                writeResponse resp = Resolved tt) ->
  close (body req) = Rejected err ->
  processRequest handler writeResponse originalOpts opts rd []
  = (ReadCalled opts :: HandlerCalled (served req) :: handler_events handler req,
     Thrown err).
Proof.
  intros Hrd Hurl Hret Hw Hclose. unfold handler_events. run_cycle.
  rewrite Hrd, Hurl. cbn. fold (served req). rewrite Hret.
  destruct (responds (handler (served req))) as [resp|] eqn:Hresp; cbn.
  - specialize (Hw resp eq_refl).
    destruct (awaits_respond (handler (served req))); cbn;
      rewrite Hw; cbn; rewrite Hclose; reflexivity.
  - rewrite Hclose. reflexivity.
Qed.

(** A cycle whose handler returns without a response. *)
Lemma cycle_no_response opts rd req :
  rd opts = Resolved req -> String.prefix "/" (url req) = true ->
  responds (handler (served req)) = None ->
  returns (handler (served req)) = Resolved tt ->
  close (body req) = Resolved tt ->
  processRequest handler writeResponse originalOpts opts rd []
  = ([ReadCalled opts; HandlerCalled (served req); HandlerReturned; BodyClosed],
     snd (decide_continue originalOpts opts req None [])).
Proof.
  intros Hrd Hurl Hresp Hret Hclose.
  assert (Hc : completes handler writeResponse req).
  { split; auto. intros resp Hr. rewrite Hresp in Hr. discriminate Hr. }
  rewrite (processRequest_completes handler writeResponse originalOpts
             opts rd req Hrd Hurl Hc).
  unfold handler_events, respondedStatus. rewrite Hresp. reflexivity.
Qed.

(** The decision on a request that asks for nothing final. *)
Lemma decide_goes_on opts req q :
  (keepAlive req = None \/
   exists ka m, keepAlive req = Some ka /\ max ka = Num m /\ 0 < m) ->
  Headers_get (headers req) "connection" <> Some "close" ->
  exists v, decide_continue originalOpts opts req None q
            = ([], Returned (Some v, q)).
Proof.
  intros Hka Hclose. unfold decide_continue. simpl.
  assert (Hb : match keepAlive req with
               | Some ka => number_le (max ka) (Num 0)
               | None => false
               end = false).
  { destruct Hka as [-> | [ka [m [-> [Hm Hpos]]]]]; [reflexivity|].
    rewrite Hm. simpl. apply Z.leb_gt. exact Hpos. }
  rewrite Hb.
  assert (Hs : is_string (Headers_get (headers req) "connection") "close" = false).
  { destruct (Headers_get (headers req) "connection") as [v|]; [|reflexivity].
    simpl. apply String.eqb_neq. intros ->. apply Hclose. reflexivity. }
  rewrite Hs. eexists. reflexivity.
Qed.

(** A handler that throws without a response: nothing lies between its
    call and the end of the cycle. *)
Lemma cycle_throws_silently opts rd req err :
  rd opts = Resolved req -> String.prefix "/" (url req) = true ->
  responds (handler (served req)) = None ->
  returns (handler (served req)) = Rejected err ->
  processRequest handler writeResponse originalOpts opts rd []
  = ([ReadCalled opts; HandlerCalled (served req)], Thrown err).
Proof.
  intros Hrd Hurl Hresp Hret. run_cycle. rewrite Hrd, Hurl. cbn.
  fold (served req). rewrite Hret, Hresp. reflexivity.
Qed.


(** Without a response there is no upgrade: the decision is to throw or
    to go on. *)
Lemma decide_without_response opts req q :
  (exists err, decide_continue originalOpts opts req None q = ([], Thrown err)) \/
  (exists v, decide_continue originalOpts opts req None q
             = ([], Returned (Some v, q))).
Proof.
  unfold decide_continue. simpl.
  destruct (match keepAlive req with
            | Some ka => number_le (max ka) (Num 0)
            | None => false
            end); [left; eexists; reflexivity|].
  destruct (is_string _ _); [left | right]; eexists; reflexivity.
Qed.

End CycleFailures.

(** ** Invariants of a session *)

Section SessionInvariants.
Variable handler : ServeHandler.
Variable writeResponse : ServerResponse -> Settle unit.
Variable originalOpts : ServeOptions.

(** The options a cycle returns are those of its read, but for the
    keep-alive timeout. *)
Lemma processRequest_next_options opts rd tr v q' :
  processRequest handler writeResponse originalOpts opts rd [] = (tr, Returned (Some v, q')) ->
  exists req,
    rd opts = Resolved req /\ q' = [] /\
    keepAliveTimeout v =
      match keepAlive req with
      | Some ka =>
          Some (Math_min (ToNumber (keepAliveTimeout originalOpts))
                         (number_mul (timeout ka) (Num 1000)))
      | None => keepAliveTimeout originalOpts
      end /\
    readTimeout v = readTimeout opts /\ cancel v = cancel opts.
Proof.
  intros Hp.
  destruct (processRequest_returns handler writeResponse originalOpts
              opts rd tr (Some v) q' Hp) as [req [Hrd [Hurl [Hc Hq]]]].
  rewrite (processRequest_completes handler writeResponse originalOpts
             opts rd req Hrd Hurl Hc) in Hp.
  injection Hp as _ Hd. exists req. subst q'.
  split; [exact Hrd|]. split; [reflexivity|].
  exact (decide_returns originalOpts opts req _ [] v [] Hd).
Qed.

Lemma reads_keep_options conn : forall opts o,
  In (ReadCalled o)
     (fst (scheduleReadRequest handler writeResponse originalOpts opts conn [])) ->
  readTimeout o = readTimeout opts /\ cancel o = cancel opts.
Proof.
  induction conn as [|rd rest IH]; intros opts o Hin.
  - simpl in Hin. destruct Hin as [H|[]]. injection H as <-. auto.
  - rewrite scheduleReadRequest_cons in Hin.
    destruct (processRequest_one_read handler writeResponse originalOpts
                opts rd []) as [c [Hc Hq]].
    destruct (processRequest handler writeResponse originalOpts opts rd [])
      as [tr [[[v|] q']| |]] eqn:Hp; simpl in Hc; subst tr.
    + destruct (processRequest_next_options _ _ _ _ _ Hp)
        as [req [_ [-> [_ [Hr Hcan]]]]].
      specialize (IH v o).
      destruct (scheduleReadRequest handler writeResponse originalOpts v rest [])
        as [tr' e]. simpl in Hin, IH.
      destruct Hin as [H|Hin]; [injection H as <-; auto|].
      apply in_app_or in Hin. destruct Hin as [Hin|Hin].
      * destruct (no_read_In c o Hq Hin).
      * destruct (IH Hin) as [-> ->]. auto.
    + simpl in Hin. destruct Hin as [H|Hin]; [injection H as <-; auto|].
      destruct (no_read_In c o Hq Hin).
    + simpl in Hin. destruct Hin as [H|Hin]; [injection H as <-; auto|].
      apply in_app_or in Hin. destruct Hin as [Hin|[H|[]]];
        [destruct (no_read_In c o Hq Hin) | discriminate H].
    + simpl in Hin. destruct Hin as [H|Hin]; [injection H as <-; auto|].
      destruct (no_read_In c o Hq Hin).
Qed.

Lemma later_reads_bounded D conn : forall opts first rest o k,
  keepAliveTimeout originalOpts = Some (Num D) ->
  fst (scheduleReadRequest handler writeResponse originalOpts opts conn [])
  = first :: rest ->
  In (ReadCalled o) rest ->
  keepAliveTimeout o = Some (Num k) -> k <= D.
Proof.
  induction conn as [|rd rest' IH]; intros opts first rest o k HD Htr Hin Hk.
  - simpl in Htr. injection Htr as _ <-. destruct Hin.
  - rewrite scheduleReadRequest_cons in Htr.
    destruct (processRequest_one_read handler writeResponse originalOpts
                opts rd []) as [c [Hc Hq]].
    destruct (processRequest handler writeResponse originalOpts opts rd [])
      as [tr [[[v|] q']| |]] eqn:Hp; simpl in Hc; subst tr.
    + destruct (processRequest_next_options _ _ _ _ _ Hp)
        as [req [_ [-> [Hv _]]]].
      destruct (scheduleReadRequest_head handler writeResponse originalOpts
                  rest' v []) as [tail Hh].
      specialize (IH v (ReadCalled v) tail o k HD).
      destruct (scheduleReadRequest handler writeResponse originalOpts v rest' [])
        as [tr' e]. simpl in Htr, Hh, IH. subst tr'.
      injection Htr as _ <-.
      apply in_app_or in Hin. destruct Hin as [Hin|[H|Hin]].
      * destruct (no_read_In c o Hq Hin).
      * injection H as <-. rewrite Hv, HD in Hk.
        destruct (keepAlive req) as [ka|].
        -- simpl in Hk. destruct (timeout ka) as [|t]; simpl in Hk;
             [discriminate Hk|]. injection Hk as <-. lia.
        -- injection Hk as <-. lia.
      * apply IH; auto.
    + simpl in Htr. injection Htr as _ <-. destruct (no_read_In c o Hq Hin).
    + simpl in Htr. injection Htr as _ <-.
      apply in_app_or in Hin. destruct Hin as [Hin|[H|[]]];
        [destruct (no_read_In c o Hq Hin) | discriminate H].
    + simpl in Htr. injection Htr as _ <-. destruct (no_read_In c o Hq Hin).
Qed.

Lemma bind_assoc {A B C} (m : Task A) (k : A -> Task B) (h : B -> Task C) q :
  bind (bind m k) h q = bind m (fun a => bind (k a) h) q.
Proof.
  unfold bind. destruct (m q) as [tr [[a q']| |]]; [|reflexivity|reflexivity].
  destruct (k a q') as [tr' [[b q'']| |]]; [|reflexivity|reflexivity].
  destruct (h b q'') as [tr'' o]. rewrite app_assoc. reflexivity.
Qed.

Lemma without_In p c e : without p c = true -> In e c -> p e = false.
Proof.
  unfold without. rewrite forallb_forall. intros H Hin.
  apply negb_true_iff. apply H. exact Hin.
Qed.

(** A cycle calls the handler at most once, right after its read, and only
    with a request whose url begins with a slash. *)
Lemma processRequest_one_call opts rd q :
  (exists req t,
      String.prefix "/" (url req) = true /\
      fst (processRequest handler writeResponse originalOpts opts rd q)
      = ReadCalled opts :: HandlerCalled (served req) :: t /\
      without is_handler_call t = true) \/
  fst (processRequest handler writeResponse originalOpts opts rd q)
  = [ReadCalled opts].
Proof.
  unfold processRequest, match_slash.
  destruct (rd opts) as [req| |] eqn:Hrd; [|right; reflexivity|right; reflexivity].
  destruct (String.prefix "/" (url req)) eqn:Hurl.
  - left. exists req.
    rewrite fst_bind_emit, bind_await_resolved, Hurl. fold (served req).
    unfold call_handler. rewrite bind_assoc, fst_bind_emit.
    eexists. split; [reflexivity|]. split; [reflexivity|].
    apply avoids_bind.
    + apply avoids_bind.
      * destruct (responds (handler (served req))); [|apply avoids_ret].
        apply avoids_bind.
        -- unfold onResponse. apply avoids_bind;
             [apply avoids_q_enqueue; reflexivity | intros; apply avoids_ret].
        -- intros r. destruct (awaits_respond (handler (served req)));
             [apply avoids_settle_responded; reflexivity | apply avoids_ret].
      * intros r. apply avoids_bind; [apply avoids_await|]. intros _.
        apply avoids_bind;
          [apply avoids_emit; reflexivity | intros; apply avoids_ret].
    + intros r. apply avoids_bind.
      { destruct r; [apply avoids_ret | apply avoids_throw |].
        apply avoids_bind; [apply avoids_settle_responded; reflexivity|].
        intros [| |]; [apply avoids_ret | apply avoids_throw | apply avoids_ret]. }
      intros _. apply avoids_bind; [apply avoids_await|]. intros _.
      apply avoids_bind; [apply avoids_emit; reflexivity|]. intros _.
      apply avoids_decide_continue.
  - right. unfold bind, emit, await, throw. rewrite Hurl. reflexivity.
Qed.

Lemma handler_calls conn : forall opts q pre req post,
  fst (scheduleReadRequest handler writeResponse originalOpts opts conn q)
  = pre ++ HandlerCalled req :: post ->
  (exists pre' o, pre = pre' ++ [ReadCalled o]) /\
  String.prefix "/" (url (baseReq req)) = true /\
  match_ req = ["/"].
Proof.
  assert (Hcycle : forall opts rd q tail pre req post,
             fst (processRequest handler writeResponse originalOpts opts rd q)
             ++ tail = pre ++ HandlerCalled req :: post ->
             ((exists pre' o, pre = pre' ++ [ReadCalled o]) /\
              String.prefix "/" (url (baseReq req)) = true /\
              match_ req = ["/"]) \/
             exists p',
               pre = fst (processRequest handler writeResponse originalOpts
                            opts rd q) ++ p' /\
               tail = p' ++ HandlerCalled req :: post).
  { intros opts rd q tail pre req post Heq.
    apply app_eq_app in Heq. destruct Heq as [l [[H1 H2] | [H1 H2]]].
    - destruct l as [|x l].
      + right. exists []. rewrite app_nil_r in H1. simpl in H2.
        split; [rewrite app_nil_r; symmetry; exact H1 | symmetry; exact H2].
      + simpl in H2. injection H2 as <- Hpost. left.
        destruct (processRequest_one_call opts rd q)
          as [[r0 [t [Hurl [Ht Hw]]]] | Ht]; rewrite Ht in H1.
        * destruct pre as [|a pre]; [discriminate H1|].
          injection H1 as <- H1.
          destruct pre as [|b pre].
          -- injection H1 as <- _.
             split; [exists [], opts; reflexivity|]. auto.
          -- injection H1 as _ H1.
             assert (Hin : In (HandlerCalled req) t)
               by (rewrite H1; apply in_or_app; right; left; reflexivity).
             pose proof (without_In _ _ _ Hw Hin) as Hf. discriminate Hf.
        * destruct pre as [|a pre]; [discriminate H1|].
          injection H1 as _ H1. destruct pre; discriminate H1.
    - right. exists l. auto. }
  induction conn as [|rd rest IH]; intros opts q pre req post Htr.
  - simpl in Htr.
    destruct pre as [|a pre]; [discriminate Htr|].
    injection Htr as _ Htr. destruct pre; discriminate Htr.
  - rewrite scheduleReadRequest_cons in Htr.
    pose proof (Hcycle opts rd q) as Hc.
    destruct (processRequest handler writeResponse originalOpts opts rd q)
      as [tr [[[v|] q']| |]]; simpl fst in *.
    + specialize (IH v q').
      destruct (scheduleReadRequest handler writeResponse originalOpts v rest q')
        as [tr' e]. simpl in Htr, IH.
      destruct (Hc tr' pre req post Htr) as [H | [p' [-> Htail]]]; [exact H|].
      destruct (IH p' req post Htail) as [[pre' [o ->]] H].
      split; [|exact H]. exists (tr ++ pre'), o. apply app_assoc.
    + simpl in Htr. rewrite <- (app_nil_r tr) in Htr.
      destruct (Hc [] pre req post Htr) as [H | [p' [_ Htail]]]; [exact H|].
      destruct p'; discriminate Htail.
    + simpl in Htr.
      destruct (Hc [ConnClosed] pre req post Htr) as [H | [p' [_ Htail]]];
        [exact H|].
      destruct p' as [|x p']; [discriminate Htail|].
      injection Htail as _ Htail. destruct p'; discriminate Htail.
    + simpl in Htr. rewrite <- (app_nil_r tr) in Htr.
      destruct (Hc [] pre req post Htr) as [H | [p' [_ Htail]]]; [exact H|].
      destruct p'; discriminate Htail.
Qed.

Lemma decide_stops opts req run q q' :
  snd (decide_continue originalOpts opts req (respondedStatus run) q)
  = Returned (None, q') ->
  exists resp, responds run = Some resp /\ status resp = Num 101.
Proof.
  unfold decide_continue, respondedStatus.
  destruct (responds run) as [resp|]; simpl.
  - destruct (status resp) as [|z] eqn:Hs; simpl.
    + destruct (match keepAlive req with
                | Some ka => number_le (max ka) (Num 0)
                | None => false
                end); [discriminate|].
      destruct (is_string _ _); discriminate.
    + destruct (z =? 101) eqn:Hz.
      * intros _. exists resp. apply Z.eqb_eq in Hz. subst z. auto.
      * destruct (match keepAlive req with
                  | Some ka => number_le (max ka) (Num 0)
                  | None => false
                  end); [discriminate|].
        destruct (is_string _ _); discriminate.
  - destruct (match keepAlive req with
              | Some ka => number_le (max ka) (Num 0)
              | None => false
              end); [discriminate|].
    destruct (is_string _ _); discriminate.
Qed.

(** A session that stops has just served an upgrade. *)
Lemma session_stopped conn : forall opts tr,
  scheduleReadRequest handler writeResponse originalOpts opts conn [] = (tr, Stopped) ->
  exists pre o req resp,
    tr = pre ++ ReadCalled o :: HandlerCalled (served req)
             :: handler_events handler req ++ [BodyClosed] /\
    responds (handler (served req)) = Some resp /\ status resp = Num 101.
Proof.
  induction conn as [|rd rest IH]; intros opts tr Hs.
  - discriminate Hs.
  - rewrite scheduleReadRequest_cons in Hs.
    destruct (processRequest handler writeResponse originalOpts opts rd [])
      as [tr1 [[[v|] q']| |]] eqn:Hp.
    + destruct (processRequest_next_options _ _ _ _ _ Hp) as [_ [_ [-> _]]].
      specialize (IH v).
      destruct (scheduleReadRequest handler writeResponse originalOpts v rest [])
        as [tr' e]. injection Hs as <- ->.
      destruct (IH tr' eq_refl) as [pre [o [req [resp [-> H]]]]].
      exists (tr1 ++ pre), o, req, resp. rewrite <- app_assoc. auto.
    + injection Hs as <-.
      destruct (processRequest_returns handler writeResponse originalOpts
                  opts rd tr1 None q' Hp) as [req [Hrd [Hurl [Hc _]]]].
      rewrite (processRequest_completes handler writeResponse originalOpts
                 opts rd req Hrd Hurl Hc) in Hp.
      injection Hp as <- Hd.
      destruct (decide_stops _ _ _ _ _ Hd) as [resp H].
      exists [], opts, req, resp. auto.
    + discriminate Hs.
    + discriminate Hs.
Qed.

End SessionInvariants.

(** ** Sessions that fail, stall or go on *)

(** X1: when [readRequest] rejects (a timeout, a malformed request, a
    cancellation), the cycle throws at once and the session calls
    [conn.close()]: the handler is not called and nothing more is read. *)
Theorem read_failure_closes handler writeResponse originalOpts
  opts rd rest q err :
  rd opts = Rejected err ->
  processRequest handler writeResponse originalOpts opts rd q
  = ([ReadCalled opts], Thrown err) /\
  scheduleReadRequest handler writeResponse originalOpts opts (rd :: rest) q
  = ([ReadCalled opts; ConnClosed], Closed).
Proof.
  intros Hrd.
  pose proof (cycle_read_fails handler writeResponse originalOpts
                opts rd err q Hrd) as Hp.
  split; [exact Hp|].
  exact (scheduleReadRequest_closes handler writeResponse originalOpts
           opts rd rest [ReadCalled opts] err q Hp).
Qed.

Lemma read_failure_closes_witness :
  processRequest Sample.handler Sample.writeResponse Sample.opts
    Sample.first_read SampleFailures.read_timeout []
  = ([ReadCalled Sample.first_read], Thrown "read timeout") /\
  scheduleReadRequest Sample.handler Sample.writeResponse Sample.opts
    Sample.first_read
    (SampleFailures.read_timeout :: Sample.reads [Sample.get_a]) []
  = ([ReadCalled Sample.first_read; ConnClosed], Closed).
Proof.
  apply (read_failure_closes Sample.handler Sample.writeResponse Sample.opts
           Sample.first_read SampleFailures.read_timeout
           (Sample.reads [Sample.get_a]) [] "read timeout").
  reflexivity.
Defined.

(** X2: when the handler throws, the session calls [conn.close()] at
    once: between the call of the handler and the closing of the
    connection lie only events of the dispatch queue, so the handler has
    not returned, the body is not closed and nothing more is read. *)
Theorem handler_throw_closes conn handler writeResponse opts
  pre o req post e err :
  handleKeepAliveConn conn handler writeResponse opts
  = (pre ++ ReadCalled o :: HandlerCalled req :: post, e) ->
  returns (handler req) = Rejected err ->
  (forall resp, responds (handler req) = Some resp ->
                awaits_respond (handler req) = true ->
                writeResponse resp <> Pending) ->
  e = Closed /\
  exists k,
    post = k ++ [ConnClosed] /\
    (forall ev, In ev k -> exists x, ev = Queue x).
Proof.
  unfold handleKeepAliveConn. intros Hs Hret Hw.
  destruct (session_cycle _ _ _ _ _ _ _ _ _ _ Hs)
    as [rd [rest [req0 [Hrd [Hurl [-> Hc]]]]]].
  destruct (cycle_handler_throws handler writeResponse (or_default opts)
              o rd req0 err Hrd Hurl Hret Hw) as [k [Hp [Hk _]]].
  pose proof (eq_trans (eq_sym Hc)
                (scheduleReadRequest_closes _ _ _ _ _ rest _ _ _ Hp)) as Hq.
  simpl in Hq. injection Hq as -> ->.
  split; [reflexivity|]. exists k. auto.
Qed.

Lemma handler_throw_closes_witness :
  Closed = Closed /\
  exists k,
    [ConnClosed] = k ++ [ConnClosed] /\
    (forall ev, In ev k -> exists x, ev = Queue x).
Proof.
  apply (handler_throw_closes
           (Sample.reads [Sample.get_a; Sample.get_b])
           SampleFailures.failing_handler Sample.writeResponse
           (Some Sample.opts)
           [] Sample.first_read (served Sample.get_a) [ConnClosed]
           Closed "not implemented").
  - vm_compute. reflexivity.
  - reflexivity.
  - intros resp H. discriminate H.
Defined.



(** X4: when closing the body of the request fails, after the handler
    has returned and its response was written, the session calls
    [conn.close()] and reads nothing more. *)
Theorem body_close_failure_closes conn handler writeResponse opts
  pre o req post e err :
  handleKeepAliveConn conn handler writeResponse opts
  = (pre ++ ReadCalled o :: HandlerCalled req :: post, e) ->
  returns (handler req) = Resolved tt ->
  (forall resp, responds (handler req) = Some resp ->
                writeResponse resp = Resolved tt) ->
  close (body (baseReq req)) = Rejected err ->
  e = Closed /\
  exists k,
    post = k ++ [ConnClosed] /\
    In HandlerReturned k /\
    (forall resp, responds (handler req) = Some resp ->
                  In (Queue (WaitQueue.WriteEnd resp true)) k) /\
    ~ In BodyClosed k /\
    (forall o', ~ In (ReadCalled o') k).
Proof.
  unfold handleKeepAliveConn. intros Hs Hret Hw Hclose.
  destruct (session_cycle _ _ _ _ _ _ _ _ _ _ Hs)
    as [rd [rest [req0 [Hrd [Hurl [-> Hc]]]]]].
  pose proof (cycle_body_close_fails handler writeResponse (or_default opts)
                o rd req0 err Hrd Hurl Hret Hw Hclose) as Hp.
  pose proof (eq_trans (eq_sym Hc)
                (scheduleReadRequest_closes _ _ _ _ _ rest _ _ _ Hp)) as Hq.
  simpl in Hq. injection Hq as -> ->.
  split; [reflexivity|]. exists (handler_events handler req0).
  split; [reflexivity|]. split; [apply handler_events_returned|].
  split.
  { intros resp Hr. apply handler_events_flushed, handler_events_enqueued.
    exact Hr. }
  split; [|apply handler_events_open].
  unfold handler_events.
  destruct (responds (handler (served req0))) as [r|];
    [destruct (awaits_respond (handler (served req0)))|];
    intros H; repeat (destruct H as [H|H]; [discriminate H|]); exact H.
Qed.

Lemma body_close_failure_closes_witness :
  Closed = Closed /\
  exists k,
    handler_events Sample.handler SampleFailures.get_torn ++ [ConnClosed]
    = k ++ [ConnClosed] /\
    In HandlerReturned k /\
    (forall resp,
        responds (Sample.handler (served SampleFailures.get_torn)) = Some resp ->
        In (Queue (WaitQueue.WriteEnd resp true)) k) /\
    ~ In BodyClosed k /\
    (forall o', ~ In (ReadCalled o') k).
Proof.
  apply (body_close_failure_closes
           (Sample.reads [SampleFailures.get_torn; Sample.get_a])
           Sample.handler Sample.writeResponse (Some Sample.opts)
           [] Sample.first_read (served SampleFailures.get_torn)
           (handler_events Sample.handler SampleFailures.get_torn
              ++ [ConnClosed])
           Closed "unexpected eof").
  - vm_compute. reflexivity.
  - reflexivity.
  - intros resp _. reflexivity.
  - reflexivity.
Defined.

(** X5: when the handler returns without a response, nothing is enqueued
    or written: the session closes the body and, the request asking for
    nothing final, goes on to the next read. *)
Theorem silent_handler_goes_on conn handler writeResponse opts
  pre o req post e :
  handleKeepAliveConn conn handler writeResponse opts
  = (pre ++ ReadCalled o :: HandlerCalled req :: post, e) ->
  responds (handler req) = None ->
  returns (handler req) = Resolved tt ->
  close (body (baseReq req)) = Resolved tt ->
  (keepAlive (baseReq req) = None \/
   exists ka m, keepAlive (baseReq req) = Some ka /\ max ka = Num m /\ 0 < m) ->
  Headers_get (headers (baseReq req)) "connection" <> Some "close" ->
  exists o2 tail,
    post = HandlerReturned :: BodyClosed :: ReadCalled o2 :: tail.
Proof.
  unfold handleKeepAliveConn. intros Hs Hresp Hret Hclose Hka Hh.
  destruct (session_cycle _ _ _ _ _ _ _ _ _ _ Hs)
    as [rd [rest [req0 [Hrd [Hurl [-> Hc]]]]]].
  pose proof (cycle_no_response handler writeResponse (or_default opts)
                o rd req0 Hrd Hurl Hresp Hret Hclose) as Hp.
  destruct (decide_goes_on (or_default opts) o req0 [] Hka Hh) as [v Hd].
  rewrite Hd in Hp. simpl snd in Hp.
  pose proof (eq_trans (eq_sym Hc)
                (scheduleReadRequest_cons handler writeResponse
                   (or_default opts) o rd rest [])) as Hq.
  rewrite Hp in Hq.
  destruct (scheduleReadRequest_head handler writeResponse (or_default opts)
              rest v []) as [tail Hh'].
  destruct (scheduleReadRequest handler writeResponse (or_default opts) v rest [])
    as [tr' e']. simpl in Hh'. subst tr'.
  simpl in Hq. injection Hq as -> _.
  exists v, tail. reflexivity.
Qed.

Lemma silent_handler_goes_on_witness :
  exists o2 tail,
    [HandlerReturned; BodyClosed; ReadCalled Sample.second_read]
    = HandlerReturned :: BodyClosed :: ReadCalled o2 :: tail.
Proof.
  apply (silent_handler_goes_on
           (Sample.reads [Sample.get_a])
           SampleFailures.silent_handler Sample.writeResponse
           (Some Sample.opts)
           [] Sample.first_read (served Sample.get_a)
           [HandlerReturned; BodyClosed; ReadCalled Sample.second_read]
           Waiting).
  - vm_compute. reflexivity.
  - reflexivity.
  - reflexivity.
  - reflexivity.
  - right. exists {| timeout := Num 5; max := Num 3 |}, 3.
    split; [reflexivity|]. split; [reflexivity | lia].
  - vm_compute. discriminate.
Defined.



(** ** What holds all along a session *)

(** X6: every read of a session is called with the configured
    [readTimeout] and the configured [cancel]: a session only ever changes
    the keep-alive timeout of its options. *)
Theorem reads_keep_readTimeout_and_cancel conn handler writeResponse opts o :
  In (ReadCalled o) (fst (handleKeepAliveConn conn handler writeResponse opts)) ->
  readTimeout o = readTimeout (or_default opts) /\
  cancel o = cancel (or_default opts).
Proof.
  unfold handleKeepAliveConn. intros Hin.
  apply (reads_keep_options handler writeResponse (or_default opts)) in Hin.
  exact Hin.
Qed.

Lemma reads_keep_readTimeout_and_cancel_witness :
  readTimeout Sample.second_read = readTimeout (or_default (Some Sample.opts)) /\
  cancel Sample.second_read = cancel (or_default (Some Sample.opts)).
Proof.
  apply (reads_keep_readTimeout_and_cancel
           (Sample.reads [Sample.get_a; Sample.get_b])
           Sample.handler Sample.writeResponse (Some Sample.opts)
           Sample.second_read).
  vm_compute. do 7 right. left. reflexivity.
Defined.

(** X7: a peer can shorten the keep-alive timeout but not lengthen it:
    when the configured keep-alive timeout is the number [D], every read
    after the first is called with a keep-alive timeout that, when it is a
    number, is at most [D]. *)
Theorem peer_cannot_lengthen_keepAlive conn handler writeResponse opts
  first rest o D k :
  fst (handleKeepAliveConn conn handler writeResponse opts) = first :: rest ->
  In (ReadCalled o) rest ->
  keepAliveTimeout (or_default opts) = Some (Num D) ->
  keepAliveTimeout o = Some (Num k) ->
  k <= D.
Proof.
  unfold handleKeepAliveConn. intros Htr Hin HD Hk.
  exact (later_reads_bounded handler writeResponse (or_default opts) D conn
           _ first rest o k HD Htr Hin Hk).
Qed.

Lemma peer_cannot_lengthen_keepAlive_witness : 5000 <= 75000.
Proof.
  apply (peer_cannot_lengthen_keepAlive
           (Sample.reads [Sample.get_a; Sample.get_b])
           Sample.handler Sample.writeResponse (Some Sample.opts)
           (ReadCalled Sample.first_read)
           (HandlerCalled (served Sample.get_a)
              :: handler_events Sample.handler Sample.get_a
              ++ BodyClosed :: ReadCalled Sample.second_read
              :: HandlerCalled (served Sample.get_b)
              :: handler_events Sample.handler Sample.get_b
              ++ [BodyClosed; ConnClosed])
           Sample.second_read 75000 5000).
  - vm_compute. reflexivity.
  - vm_compute. do 6 right. left. reflexivity.
  - reflexivity.
  - reflexivity.
Defined.

(** X8: the handler is only ever called right after a read, with a request
    whose url begins with "/" and whose [match] is the match of that
    slash. *)
Theorem handler_called_after_read_on_slash_url conn handler writeResponse opts
  pre req post :
  fst (handleKeepAliveConn conn handler writeResponse opts)
  = pre ++ HandlerCalled req :: post ->
  (exists pre' o, pre = pre' ++ [ReadCalled o]) /\
  (exists u, url (baseReq req) = String "/" u) /\
  match_ req = ["/"].
Proof.
  unfold handleKeepAliveConn. intros Htr.
  destruct (handler_calls handler writeResponse (or_default opts) conn
              _ [] pre req post Htr) as [Hpre [Hurl Hm]].
  split; [exact Hpre|]. split; [|exact Hm].
  destruct (url (baseReq req)) as [|c u]; [discriminate Hurl|].
  change (String.prefix "/" (String c u))
    with (if ascii_dec "/" c then String.prefix "" u else false) in Hurl.
  destruct (ascii_dec "/" c) as [<-|]; [|discriminate Hurl].
  exists u. reflexivity.
Qed.

Lemma handler_called_after_read_on_slash_url_witness :
  (exists pre' o, [ReadCalled Sample.first_read] = pre' ++ [ReadCalled o]) /\
  (exists u, url (baseReq (served Sample.get_a)) = String "/" u) /\
  match_ (served Sample.get_a) = ["/"].
Proof.
  apply (handler_called_after_read_on_slash_url
           (Sample.reads [Sample.get_a])
           Sample.handler Sample.writeResponse (Some Sample.opts)
           [ReadCalled Sample.first_read] (served Sample.get_a)
           (handler_events Sample.handler Sample.get_a
              ++ [BodyClosed; ReadCalled Sample.second_read])).
  vm_compute. reflexivity.
Defined.

(** X9: a session calls [conn.close()] at most once: exactly once when it
    ends closed, and never when it ends otherwise; and once the call is
    made, the session reads no request and calls the handler no more.
    A write that is in flight at that moment settles later, and the trace
    does not follow it. *)
Theorem connection_closed_at_most_once conn handler writeResponse opts :
  conn_closes (fst (handleKeepAliveConn conn handler writeResponse opts))
  = match snd (handleKeepAliveConn conn handler writeResponse opts) with
    | Closed => 1%nat
    | _ => 0%nat
    end /\
  forall pre post,
    fst (handleKeepAliveConn conn handler writeResponse opts)
    = pre ++ ConnClosed :: post ->
    without is_read post = true /\ without is_handler_call post = true.
Proof.
  unfold handleKeepAliveConn.
  match goal with
  | |- context [snd ?s] => destruct s as [tr e] eqn:Hs
  end.
  pose proof (session_closes_last _ _ _ _ _ _ _ _ Hs) as H. simpl.
  assert (Hopen : forall t, without is_close t = true ->
                            conn_closes t = 0%nat /\
                            forall pre post, t <> pre ++ ConnClosed :: post).
  { intros t Ht. split.
    - unfold conn_closes. induction t as [|x t IH]; [reflexivity|].
      simpl in Ht. apply andb_true_iff in Ht. destruct Ht as [Hx Ht].
      simpl. destruct (is_close x); [discriminate Hx | exact (IH Ht)].
    - intros pre post ->. apply (without_close_In _ Ht).
      apply in_or_app. right. left. reflexivity. }
  destruct e.
  - destruct H as [tr' [-> Hw]]. destruct (Hopen tr' Hw) as [Hn Hsplit].
    split.
    + unfold conn_closes in *. rewrite filter_app, length_app, Hn.
      reflexivity.
    + intros pre post Heq.
      destruct post as [|x post]; [split; reflexivity|].
      destruct (exists_last (l := x :: post)) as [post' [y Hp]];
        [discriminate|].
      rewrite Hp in Heq.
      change (pre ++ ConnClosed :: post' ++ [y])
        with (pre ++ (ConnClosed :: post') ++ [y]) in Heq.
      rewrite app_assoc in Heq. apply app_inj_tail in Heq.
      destruct Heq as [Heq _]. destruct (Hsplit pre post' Heq).
  - destruct (Hopen tr H) as [Hn Hsplit].
    split; [exact Hn|]. intros pre post Heq. destruct (Hsplit pre post Heq).
  - destruct (Hopen tr H) as [Hn Hsplit].
    split; [exact Hn|]. intros pre post Heq. destruct (Hsplit pre post Heq).
Qed.

(** X10: a session stops and leaves the connection open only after an
    upgrade: its last cycle is that of a request to which the handler
    responded with status 101, and it ends with the closing of the body of
    that request. *)
Theorem stops_only_after_upgrade conn handler writeResponse opts :
  snd (handleKeepAliveConn conn handler writeResponse opts) = Stopped ->
  exists pre o req k resp,
    fst (handleKeepAliveConn conn handler writeResponse opts)
    = pre ++ ReadCalled o :: HandlerCalled req :: k ++ [BodyClosed] /\
    responds (handler req) = Some resp /\ status resp = Num 101 /\
    In (Queue (WaitQueue.WriteEnd resp true)) k.
Proof.
  unfold handleKeepAliveConn.
  match goal with
  | |- context [snd ?s] => destruct s as [tr e] eqn:Hs
  end.
  simpl. intros ->.
  destruct (session_stopped handler writeResponse (or_default opts) conn
              _ tr Hs) as [pre [o [req [resp [-> [Hr H101]]]]]].
  exists pre, o, (served req), (handler_events handler req), resp.
  split; [reflexivity|]. split; [exact Hr|]. split; [exact H101|].
  apply handler_events_flushed, handler_events_enqueued. exact Hr.
Qed.

Lemma stops_only_after_upgrade_witness :
  exists pre o req k resp,
    fst (handleKeepAliveConn (Sample.reads [Sample.get_a; Sample.get_ws])
           Sample.handler Sample.writeResponse (Some Sample.opts))
    = pre ++ ReadCalled o :: HandlerCalled req :: k ++ [BodyClosed] /\
    responds (Sample.handler req) = Some resp /\ status resp = Num 101 /\
    In (Queue (WaitQueue.WriteEnd resp true)) k.
Proof.
  apply (stops_only_after_upgrade
           (Sample.reads [Sample.get_a; Sample.get_ws])
           Sample.handler Sample.writeResponse (Some Sample.opts)).
  vm_compute. reflexivity.
Defined.

(** ** More on the listener supervisor *)

Module SupervisorMore.
Import Supervisor SupervisorCount.

(** An accept that fails closes the supervisor, unless it is closed
    already. *)
Lemma step_accept_fails opts tr s err :
  inv opts tr s ->
  closed (snd (step opts (AcceptSettles (Rejected err)) s)) = true /\
  (fst (step opts (AcceptSettles (Rejected err)) s) = [] \/
   fst (step opts (AcceptSettles (Rejected err)) s) = [ResolveD; ListenerClose]).
Proof.
  unfold inv. destruct s as [c d x a]. simpl.
  destruct c.
  - intros [-> _]. simpl. auto.
  - intros [-> [Hcan _]]. unfold settle_accept, throwIfCancelled. simpl.
    rewrite Hcan. simpl. auto.
Qed.

(** An input after which the supervisor is closed, whatever its state
    was, is final. *)
Lemma closing_step_final opts before i after :
  (forall tr s,
      inv (or_default opts) tr s ->
      closed (snd (step (or_default opts) i s)) = true /\
      (fst (step (or_default opts) i s) = [] \/
       fst (step (or_default opts) i s) = [ResolveD; ListenerClose])) ->
  closed (snd (listenInternal opts (before ++ [i]))) = true /\
  (exists ev,
      fst (listenInternal opts (before ++ [i]))
      = fst (listenInternal opts before) ++ ev /\
      (ev = [] \/ ev = [ResolveD; ListenerClose])) /\
  fst (listenInternal opts (before ++ i :: after))
  = fst (listenInternal opts (before ++ [i])) /\
  socket_closes (fst (listenInternal opts (before ++ i :: after))) = 1%nat /\
  signal_resolves (fst (listenInternal opts (before ++ i :: after))) = 1%nat.
Proof.
  intros Hi.
  pose proof (SupervisorFacts.listenInternal_inv opts before) as Hb.
  pose proof (SupervisorFacts.listenInternal_inv opts (before ++ [i])) as Hbi.
  pose proof (SupervisorFacts.listenInternal_app opts before [i]) as E1.
  pose proof (SupervisorFacts.listenInternal_app opts (before ++ [i]) after) as E2.
  rewrite <- app_assoc in E2. simpl in E2.
  destruct (listenInternal opts before) as [tr0 s0].
  simpl in E1. simpl in Hb.
  destruct (Hi tr0 s0 Hb) as [Hc Hev].
  destruct (step (or_default opts) i s0) as [ev s1]. simpl in Hc, Hev.
  rewrite app_nil_r in E1. rewrite E1 in *. simpl in Hbi.
  unfold inv in Hbi. rewrite Hc in Hbi. destruct Hbi as [Ha [H1 H2]].
  pose proof (SupervisorFacts.run_closed (or_default opts) after s1 Hc Ha)
    as Hafter.
  destruct (run (or_default opts) after s1) as [ev' s2]. simpl in Hafter.
  subst ev'. rewrite E2. simpl. rewrite app_nil_r.
  split; [exact Hc|]. split; [exists ev; auto|]. auto.
Qed.

(** X12: an accept that fails is fatal to the supervisor: it runs
    [close], so the supervisor is closed, that step causes at most the one
    resolution of the deferred and the one closing of the socket, and
    nothing that happens afterwards causes any event: no further accept,
    no connection served. *)
Theorem accept_failure_closes opts before err after :
  closed (snd (listenInternal opts
                 (before ++ [AcceptSettles (Rejected err)]))) = true /\
  (exists ev,
      fst (listenInternal opts (before ++ [AcceptSettles (Rejected err)]))
      = fst (listenInternal opts before) ++ ev /\
      (ev = [] \/ ev = [ResolveD; ListenerClose])) /\
  fst (listenInternal opts (before ++ AcceptSettles (Rejected err) :: after))
  = fst (listenInternal opts (before ++ [AcceptSettles (Rejected err)])) /\
  socket_closes
    (fst (listenInternal opts (before ++ AcceptSettles (Rejected err) :: after)))
  = 1%nat /\
  signal_resolves
    (fst (listenInternal opts (before ++ AcceptSettles (Rejected err) :: after)))
  = 1%nat.
Proof.
  apply closing_step_final. intros tr s H.
  apply (step_accept_fails (or_default opts) tr s err H).
Qed.

(** X13: while the supervisor is open, a connection that is accepted is
    handed to [handleKeepAliveConn] with the supervisor's options at once,
    and the next accept is called right after, without waiting for the
    session; the supervisor stays open. *)
Theorem accepted_connection_served_and_next_accept opts before conn :
  closed (snd (listenInternal opts before)) = false ->
  fst (listenInternal opts (before ++ [AcceptSettles (Resolved conn)]))
  = fst (listenInternal opts before) ++ [Serve conn (or_default opts); Accept] /\
  closed (snd (listenInternal opts (before ++ [AcceptSettles (Resolved conn)])))
  = false.
Proof.
  intros Hopen.
  pose proof (SupervisorFacts.listenInternal_inv opts before) as Hb.
  rewrite (SupervisorFacts.listenInternal_app opts before
             [AcceptSettles (Resolved conn)]).
  destruct (listenInternal opts before) as [tr0 s0]. simpl in Hopen, Hb.
  unfold inv in Hb. rewrite Hopen in Hb. destruct Hb as [Ha [Hcan _]].
  destruct s0 as [c d x a]. simpl in *. subst c a.
  unfold settle_accept, throwIfCancelled. simpl. rewrite Hcan. simpl.
  rewrite ?app_nil_r. auto.
Qed.

Lemma accepted_connection_served_and_next_accept_witness :
  fst (listenInternal (Some Sample.opts)
         ([AcceptSettles (Resolved (Sample.reads [Sample.get_a]))]
            ++ [AcceptSettles (Resolved (Sample.reads [Sample.get_b]))]))
  = fst (listenInternal (Some Sample.opts)
           [AcceptSettles (Resolved (Sample.reads [Sample.get_a]))])
    ++ [Serve (Sample.reads [Sample.get_b]) (or_default (Some Sample.opts));
        Accept] /\
  closed (snd (listenInternal (Some Sample.opts)
                 ([AcceptSettles (Resolved (Sample.reads [Sample.get_a]))]
                    ++ [AcceptSettles (Resolved (Sample.reads [Sample.get_b]))])))
  = false.
Proof.
  apply (accepted_connection_served_and_next_accept (Some Sample.opts)
           [AcceptSettles (Resolved (Sample.reads [Sample.get_a]))]
           (Sample.reads [Sample.get_b])).
  reflexivity.
Defined.

Lemma run_serves opts ins : forall s conn o,
  In (Serve conn o) (fst (run opts ins s)) ->
  o = opts /\ In (AcceptSettles (Resolved conn)) ins.
Proof.
  induction ins as [|i ins IH]; intros s conn o Hin; [destruct Hin|].
  simpl in Hin.
  destruct (step opts i s) as [ev s1] eqn:Hstep.
  specialize (IH s1 conn o).
  destruct (run opts ins s1) as [ev' s2]. simpl in Hin, IH.
  apply in_app_or in Hin. destruct Hin as [Hin|Hin].
  - assert (Hi : o = opts /\ i = AcceptSettles (Resolved conn)).
    { destruct s as [c d x a]. destruct i as [| |r]; simpl in Hstep.
      - unfold close_, settle_accept, throwIfCancelled in Hstep. simpl in Hstep.
        destruct c, a; simpl in Hstep;
          try (destruct (cancelled opts _); simpl in Hstep);
          try (destruct c; simpl in Hstep);
          injection Hstep as <- _;
          repeat (destruct Hin as [Hin|Hin]; [discriminate Hin|]);
          destruct Hin.
      - unfold close_, settle_accept, throwIfCancelled in Hstep. simpl in Hstep.
        destruct a; simpl in Hstep;
          try (destruct (cancelled opts _); simpl in Hstep);
          try (destruct c; simpl in Hstep);
          injection Hstep as <- _;
          repeat (destruct Hin as [Hin|Hin]; [discriminate Hin|]);
          destruct Hin.
      - unfold close_, settle_accept, throwIfCancelled in Hstep. simpl in Hstep.
        destruct a; simpl in Hstep;
          [destruct (cancelled opts _); simpl in Hstep;
           [|destruct r as [conn'|err|]; simpl in Hstep]|];
          try (destruct c; simpl in Hstep);
          injection Hstep as <- _;
          repeat (destruct Hin as [Hin|Hin];
                  [try discriminate Hin;
                   injection Hin as -> ->; auto|]);
          destruct Hin. }
    destruct Hi as [-> ->]. split; [reflexivity | left; reflexivity].
  - destruct (IH Hin) as [-> H]. split; [reflexivity | right; exact H].
Qed.

(** X14: a supervisor only serves connections that its listener accepted,
    and serves every one of them with the very options it was started
    with. *)
Theorem serves_accepted_connections_with_its_options opts ins conn o :
  In (Serve conn o) (fst (listenInternal opts ins)) ->
  o = or_default opts /\ In (AcceptSettles (Resolved conn)) ins.
Proof.
  rewrite SupervisorFacts.listenInternal_eq. intros Hin.
  match type of Hin with
  | context [run ?a ?b ?c] =>
      pose proof (run_serves a b c conn o) as H;
      destruct (run a b c) as [ev s]
  end.
  simpl in Hin, H. destruct Hin as [Hin|Hin]; [discriminate Hin|].
  exact (H Hin).
Qed.

Lemma serves_accepted_connections_with_its_options_witness :
  or_default (Some Sample.opts) = or_default (Some Sample.opts) /\
  In (AcceptSettles (Resolved (Sample.reads [Sample.get_a])))
     [AcceptSettles (Resolved (Sample.reads [Sample.get_a])); CallClose].
Proof.
  apply (serves_accepted_connections_with_its_options (Some Sample.opts)
           [AcceptSettles (Resolved (Sample.reads [Sample.get_a])); CallClose]
           (Sample.reads [Sample.get_a]) (or_default (Some Sample.opts))).
  vm_compute. right. left. reflexivity.
Defined.

(** What one input can cause, in a state the supervisor can be in. *)
Lemma step_events opts tr s i :
  inv opts tr s ->
  fst (step opts i s) = [] \/
  fst (step opts i s) = [ResolveD; ListenerClose] \/
  exists conn, fst (step opts i s) = [Serve conn opts; Accept].
Proof.
  unfold inv. destruct s as [c d x a]. simpl.
  destruct c.
  - intros [-> _]. destruct i; simpl; auto.
  - intros [-> [Hcan _]]. unfold cancelled in Hcan. simpl in Hcan.
    destruct i as [| |r]; simpl;
      unfold settle_accept, cancelled, throwIfCancelled; simpl.
    + destruct (cancel opts); simpl; rewrite ?orb_true_r; simpl; auto.
    + destruct (cancel opts); simpl; [auto|]. rewrite Hcan. simpl. auto.
    + rewrite Hcan. destruct r as [conn|err|]; simpl; eauto.
Qed.

Lemma accepts_app a b : accepts (a ++ b) = (accepts a + accepts b)%nat.
Proof. unfold accepts. rewrite filter_app. apply length_app. Qed.

Lemma serves_app a b : serves (a ++ b) = (serves a + serves b)%nat.
Proof. unfold serves. rewrite filter_app. apply length_app. Qed.

Lemma run_counts opts ins : forall tr s,
  inv opts tr s ->
  accepts (fst (run opts ins s)) = serves (fst (run opts ins s)).
Proof.
  induction ins as [|i ins IH]; intros tr s H; [reflexivity|].
  simpl.
  pose proof (SupervisorFacts.step_inv opts tr s i H) as Hstep.
  pose proof (step_events opts tr s i H) as Hev.
  destruct (step opts i s) as [ev s1]. simpl in Hstep, Hev.
  specialize (IH _ _ Hstep).
  destruct (run opts ins s1) as [ev' s2]. simpl in *.
  rewrite accepts_app, serves_app, IH.
  destruct Hev as [-> | [-> | [conn ->]]]; reflexivity.
Qed.

(** X15: the supervisor calls [listener.accept()] once at the start and
    once more for each connection it serves, and never otherwise: at any
    time the accepts are one more than the connections served. *)
Theorem one_accept_per_served_connection opts ins :
  accepts (fst (listenInternal opts ins))
  = S (serves (fst (listenInternal opts ins))).
Proof.
  rewrite SupervisorFacts.listenInternal_eq.
  match goal with
  | |- context [run ?a ?b ?c] =>
      pose proof (run_counts a b [Accept] c) as H;
      destruct (run a b c) as [ev s]
  end.
  simpl in *. unfold accepts, serves in *. simpl. f_equal. apply H.
  unfold inv, cancelled. simpl. destruct (cancel (or_default opts)); auto.
Qed.

Lemma step_closing opts tr s i :
  inv opts tr s -> closed s = false ->
  closed (snd (step opts i s)) = true -> closing opts i.
Proof.
  unfold inv, closing. destruct s as [c d x a]. simpl.
  intros H ->. destruct H as [-> [Hcan _]].
  unfold cancelled in Hcan. simpl in Hcan.
  destruct i as [| |r]; simpl; [auto| |];
    unfold settle_accept, cancelled, throwIfCancelled; simpl.
  - destruct (cancel opts) eqn:Hc; simpl.
    + intros _. right. left. split; [reflexivity | discriminate].
    + rewrite Hcan. simpl. discriminate.
  - rewrite Hcan. destruct r as [conn|err|]; simpl; try discriminate.
    intros _. right. right. exists err. reflexivity.
Qed.

Lemma run_closing opts ins : forall tr s,
  inv opts tr s -> closed s = false ->
  closed (snd (run opts ins s)) = true ->
  exists i, In i ins /\ closing opts i.
Proof.
  induction ins as [|i ins IH]; intros tr s H Hopen Hclosed.
  - simpl in Hclosed. rewrite Hopen in Hclosed. discriminate Hclosed.
  - simpl in Hclosed.
    pose proof (SupervisorFacts.step_inv opts tr s i H) as Hstep.
    pose proof (step_closing opts tr s i H Hopen) as Hc.
    destruct (step opts i s) as [ev s1]. simpl in Hstep, Hc.
    destruct (closed s1) eqn:Hs1.
    + exists i. split; [left; reflexivity | apply Hc; reflexivity].
    + specialize (IH _ _ Hstep Hs1).
      destruct (run opts ins s1) as [ev' s2]. simpl in *.
      destruct (IH Hclosed) as [j [Hj Hcl]].
      exists j. split; [right; exact Hj | exact Hcl].
Qed.

(** X16: a supervisor never closes by itself: when it is closed, its
    [close()] was called, or the caller's cancel promise resolved, or an
    accept failed.  Accepted connections and what becomes of their
    sessions never close it. *)
Theorem closes_only_for_a_reason opts ins :
  closed (snd (listenInternal opts ins)) = true ->
  exists i, In i ins /\ closing (or_default opts) i.
Proof.
  rewrite SupervisorFacts.listenInternal_eq. intros Hc.
  match type of Hc with
  | context [run ?a ?b ?c] =>
      pose proof (run_closing a b [Accept] c) as H;
      destruct (run a b c) as [ev s]
  end.
  simpl in *. apply H; auto.
  unfold inv, cancelled. simpl. destruct (cancel (or_default opts)); auto.
Qed.

Lemma closes_only_for_a_reason_witness :
  exists i,
    In i [AcceptSettles (Resolved []); AcceptSettles (Rejected "EMFILE")] /\
    closing (or_default (Some Sample.opts)) i.
Proof.
  apply (closes_only_for_a_reason (Some Sample.opts)
           [AcceptSettles (Resolved []); AcceptSettles (Rejected "EMFILE")]).
  reflexivity.
Defined.

End SupervisorMore.

(** ** [serveJsx] *)

Module JsxFacts.
Import Jsx.

Section Facts.
Variable resolveIndexPath : string -> string -> list string -> Settle (option string).
Variable path : IncomingHttpRequest -> string.
Variable renderToString : Element -> string.
Variable writeResponse : ServerResponse -> Settle unit.
Variable dir : string.
Variable onImport : string -> Settle JsModule.
Variable parentComponent : option ElementType.

Lemma found_some p file :
  found p = Some file <-> p = Some file /\ file <> "".
Proof.
  unfold found. destruct p as [f|].
  - destruct (String.eqb f "") eqn:Hf.
    + apply String.eqb_eq in Hf. subst f.
      split; [discriminate|]. intros [H Hne]. injection H as <-.
      destruct Hne. reflexivity.
    + apply String.eqb_neq in Hf.
      split.
      * intros H. injection H as <-. auto.
      * intros [H _]. exact H.
  - split; [discriminate | intros [H _]; discriminate H].
Qed.

(** What [serveJsx] does with a request, case by case. *)
Lemma serveJsx_cases req :
  let run := serveJsx resolveIndexPath path renderToString writeResponse
               dir onImport parentComponent req in
  (responds run = None) \/
  exists file jsx el props,
    resolveIndexPath dir (path (baseReq req)) [".tsx"; ".jsx"]
    = Resolved (Some file) /\
    file <> "" /\
    onImport file = Resolved jsx /\
    default jsx = EFunction el /\
    match getInitialProps el with
    | PropsFunction result => result = Resolved props
    | NoFunction => props = []
    end /\
    run = respond writeResponse
            {| status := Num 200;
               response_headers := [("content-type", "text/html; charset=UTF-8")];
               response_body :=
                 Some (renderToString
                         (createElement (or_Fragment parentComponent) []
                            [createElement (Of el) props []])) |}.
Proof.
  unfold serveJsx, awaiting, throws, hangs, returned. cbv zeta.
  destruct (resolveIndexPath dir (path (baseReq req)) [".tsx"; ".jsx"])
    as [p| |]; simpl; auto.
  destruct (found p) as [file|] eqn:Hf; simpl; auto.
  apply found_some in Hf. destruct Hf as [-> Hne].
  destruct (onImport file) as [jsx| |] eqn:Himp; simpl; auto.
  destruct (falsy (default jsx)); simpl; auto.
  destruct (default jsx) as [| | | | | |el] eqn:Hd; simpl; auto.
  destruct (getInitialProps el) as [|[props| |]] eqn:Hg; simpl; auto.
  - right. exists file, jsx, el, []. rewrite Hg. auto 10.
  - right. exists file, jsx, el, props. rewrite Hg. auto 10.
Qed.

(** A response of [serveJsx] is never an upgrade. *)
Lemma serveJsx_status req resp :
  responds (serveJsx resolveIndexPath path renderToString writeResponse
              dir onImport parentComponent req) = Some resp ->
  status resp = Num 200.
Proof.
  intros H. destruct (serveJsx_cases req) as [Hn | Hc].
  - rewrite Hn in H. discriminate H.
  - destruct Hc as [file [jsx [el [props [_ [_ [_ [_ [_ Hrun]]]]]]]]].
    rewrite Hrun in H. injection H as <-. reflexivity.
Qed.

(** [serveJsx] on a request whose path resolves to no file. *)
Lemma serveJsx_not_found req p :
  resolveIndexPath dir (path (baseReq req)) [".tsx"; ".jsx"] = Resolved p ->
  p = None \/ p = Some "" ->
  serveJsx resolveIndexPath path renderToString writeResponse
    dir onImport parentComponent req = returned.
Proof.
  intros Hr Hp. unfold serveJsx, awaiting. rewrite Hr.
  destruct Hp as [-> | ->]; reflexivity.
Qed.

(** [serveJsx] on a module whose default export is no function. *)
Lemma serveJsx_bad_export req file jsx :
  resolveIndexPath dir (path (baseReq req)) [".tsx"; ".jsx"]
  = Resolved (Some file) ->
  file <> "" ->
  onImport file = Resolved jsx ->
  (forall el, default jsx <> EFunction el) ->
  exists err,
    serveJsx resolveIndexPath path renderToString writeResponse
      dir onImport parentComponent req = throws err /\
    (err = "jsx: jsx/tsx files served by serveJsx must has default export!" \/
     err = "jsx: default export must be React component!").
Proof.
  intros Hr Hne Himp Hd. unfold serveJsx, awaiting. rewrite Hr.
  cbv beta iota zeta.
  assert (Hf : found (Some file) = Some file) by (apply found_some; auto).
  rewrite Hf, Himp. cbv beta iota zeta.
  destruct (falsy (default jsx)); [eexists; split; [reflexivity | auto]|].
  destruct (default jsx) as [| | | | | |el] eqn:He;
    try (eexists; split; [reflexivity | auto]).
  destruct (Hd el). reflexivity.
Qed.

(** X18: a session served by [serveJsx] never stops with the connection
    left open: it ends closed, or it waits. *)
Theorem serveJsx_session_never_hands_off conn opts :
  snd (handleKeepAliveConn conn
         (serveJsx resolveIndexPath path renderToString writeResponse
            dir onImport parentComponent)
         writeResponse opts) = Closed \/
  snd (handleKeepAliveConn conn
         (serveJsx resolveIndexPath path renderToString writeResponse
            dir onImport parentComponent)
         writeResponse opts) = Waiting.
Proof.
  unfold handleKeepAliveConn.
  match goal with
  | |- context [snd ?s] => destruct s as [tr e] eqn:Hs
  end.
  simpl. destruct e; auto.
  destruct (session_stopped _ _ _ _ _ _ Hs)
    as [pre [o [req [resp [_ [Hr H101]]]]]].
  apply serveJsx_status in Hr. rewrite Hr in H101. discriminate H101.
Qed.

(** X19: when the file of a request is imported and its default export is
    no function (missing, or any other value), the session closes the
    connection at once, with nothing enqueued or written for that
    request. *)
Theorem serveJsx_bad_export_closes conn opts pre o req post e file jsx :
  handleKeepAliveConn conn
    (serveJsx resolveIndexPath path renderToString writeResponse
       dir onImport parentComponent)
    writeResponse opts
  = (pre ++ ReadCalled o :: HandlerCalled req :: post, e) ->
  resolveIndexPath dir (path (baseReq req)) [".tsx"; ".jsx"]
  = Resolved (Some file) ->
  file <> "" ->
  onImport file = Resolved jsx ->
  (forall el, default jsx <> EFunction el) ->
  e = Closed /\ post = [ConnClosed].
Proof.
  unfold handleKeepAliveConn. intros Hs Hr Hne Himp Hd.
  destruct (session_cycle _ _ _ _ _ _ _ _ _ _ Hs)
    as [rd [rest [req0 [Hrd [Hurl [-> Hc]]]]]].
  destruct (serveJsx_bad_export (served req0) file jsx Hr Hne Himp Hd)
    as [err [Hrun _]].
  assert (Hp := cycle_throws_silently _ writeResponse (or_default opts)
                  o rd req0 err Hrd Hurl
                  (f_equal responds Hrun) (f_equal returns Hrun)).
  pose proof (eq_trans (eq_sym Hc)
                (scheduleReadRequest_closes _ _ _ _ _ rest _ _ _ Hp)) as Hq.
  simpl in Hq. injection Hq as -> ->. auto.
Qed.

(** X20: when the path of a request resolves to no file, [serveJsx]
    returns without a response: nothing is enqueued or written for that
    request; the session closes its body and then either closes the
    connection or goes on to the next read. *)
Theorem serveJsx_not_found_writes_nothing conn opts pre o req post e p :
  handleKeepAliveConn conn
    (serveJsx resolveIndexPath path renderToString writeResponse
       dir onImport parentComponent)
    writeResponse opts
  = (pre ++ ReadCalled o :: HandlerCalled req :: post, e) ->
  resolveIndexPath dir (path (baseReq req)) [".tsx"; ".jsx"] = Resolved p ->
  p = None \/ p = Some "" ->
  close (body (baseReq req)) = Resolved tt ->
  exists tail,
    post = HandlerReturned :: BodyClosed :: tail /\
    (tail = [ConnClosed] \/ exists o2 tail', tail = ReadCalled o2 :: tail').
Proof.
  unfold handleKeepAliveConn. intros Hs Hr Hp Hclose.
  destruct (session_cycle _ _ _ _ _ _ _ _ _ _ Hs)
    as [rd [rest [req0 [Hrd [Hurl [-> Hc]]]]]].
  pose proof (serveJsx_not_found (served req0) p Hr Hp) as Hrun.
  assert (Hcyc := cycle_no_response _ writeResponse (or_default opts)
                    o rd req0 Hrd Hurl
                    (f_equal responds Hrun) (f_equal returns Hrun) Hclose).
  pose proof (eq_trans (eq_sym Hc)
                (scheduleReadRequest_cons _ writeResponse
                   (or_default opts) o rd rest [])) as Hq.
  rewrite Hcyc in Hq.
  destruct (decide_without_response (or_default opts) o req0 [])
    as [[err Hd] | [v Hd]]; rewrite Hd in Hq; simpl in Hq.
  - injection Hq as -> _. eexists. split; [reflexivity | left; reflexivity].
  - destruct (scheduleReadRequest_head
                (serveJsx resolveIndexPath path renderToString writeResponse
                   dir onImport parentComponent)
                writeResponse (or_default opts) rest v []) as [tail Hh].
    match type of Hq with
    | context [scheduleReadRequest ?a ?b ?c ?d ?f ?g] =>
        destruct (scheduleReadRequest a b c d f g) as [tr' e']
    end.
    simpl in Hh. subst tr'. simpl in Hq. injection Hq as -> _.
    eexists. split; [reflexivity|]. right. eauto.
Qed.

(** X21: when the file of a request is imported, its default export is a
    function and the write succeeds, the session enqueues the rendering,
    writes it, and only then lets the handler return and closes the body
    of the request. *)
Theorem serveJsx_serves_the_page conn opts pre o req post e
  file jsx el props page :
  handleKeepAliveConn conn
    (serveJsx resolveIndexPath path renderToString writeResponse
       dir onImport parentComponent)
    writeResponse opts
  = (pre ++ ReadCalled o :: HandlerCalled req :: post, e) ->
  resolveIndexPath dir (path (baseReq req)) [".tsx"; ".jsx"]
  = Resolved (Some file) ->
  file <> "" ->
  onImport file = Resolved jsx ->
  default jsx = EFunction el ->
  match getInitialProps el with
  | PropsFunction result => result = Resolved props
  | NoFunction => props = []
  end ->
  page = {| status := Num 200;
            response_headers := [("content-type", "text/html; charset=UTF-8")];
            response_body :=
              Some (renderToString
                      (createElement (or_Fragment parentComponent) []
                         [createElement (Of el) props []])) |} ->
  writeResponse page = Resolved tt ->
  close (body (baseReq req)) = Resolved tt ->
  exists tail,
    post = Queue (WaitQueue.Enqueued page) :: Queue (WaitQueue.WriteBegin page)
             :: Queue (WaitQueue.WriteEnd page true)
             :: HandlerReturned :: BodyClosed :: tail.
Proof.
  unfold handleKeepAliveConn. intros Hs Hr Hne Himp Hd Hg Hpage Hw Hclose.
  destruct (session_cycle _ _ _ _ _ _ _ _ _ _ Hs)
    as [rd [rest [req0 [Hrd [Hurl [-> Hc]]]]]].
  set (h := serveJsx resolveIndexPath path renderToString writeResponse
              dir onImport parentComponent) in *.
  assert (Hrun : h (served req0) = respond writeResponse page).
  { subst h page. unfold serveJsx, awaiting. rewrite Hr. cbv beta iota zeta.
    assert (Hf : found (Some file) = Some file) by (apply found_some; auto).
    rewrite Hf, Himp. cbv beta iota zeta. rewrite Hd. simpl.
    destruct (getInitialProps el) as [|result]; subst; reflexivity. }
  assert (Hcomp : completes h writeResponse req0).
  { split; [rewrite Hrun; exact Hw | | exact Hclose].
    intros resp Hresp. rewrite Hrun in Hresp. injection Hresp as <-. exact Hw. }
  pose proof (processRequest_completes h writeResponse (or_default opts)
                o rd req0 Hrd Hurl Hcomp) as Hp.
  unfold handler_events in Hp. rewrite Hrun in Hp. simpl in Hp.
  pose proof (eq_trans (eq_sym Hc)
                (scheduleReadRequest_cons h writeResponse
                   (or_default opts) o rd rest [])) as Hq.
  rewrite Hp in Hq.
  match type of Hq with
  | context [snd ?d] => destruct (snd d) as [[[v|] q']| |]
  end.
  - destruct (scheduleReadRequest h writeResponse (or_default opts) v rest q')
      as [tr' e'].
    simpl in Hq. injection Hq as -> _. eexists. reflexivity.
  - simpl in Hq. injection Hq as -> _. exists []. reflexivity.
  - simpl in Hq. injection Hq as -> _. eexists. reflexivity.
  - simpl in Hq. injection Hq as -> _. exists []. reflexivity.
Qed.

End Facts.

Lemma serveJsx_bad_export_closes_witness :
  Closed = Closed /\ [ConnClosed] = [ConnClosed].
Proof.
  apply (serveJsx_bad_export_closes
           SampleJsx.resolveIndexPath SampleJsx.path SampleJsx.renderToString
           Sample.writeResponse "pages" SampleJsx.onImport None
           (Sample.reads [SampleJsx.get_broken; SampleJsx.get_about])
           (Some Sample.opts)
           [] Sample.first_read (served SampleJsx.get_broken) [ConnClosed]
           Closed "pages/broken.tsx" {| default := EUndefined |}).
  - vm_compute. reflexivity.
  - reflexivity.
  - intros H. discriminate H.
  - reflexivity.
  - intros el H. discriminate H.
Defined.

Lemma serveJsx_not_found_writes_nothing_witness :
  exists tail,
    [HandlerReturned; BodyClosed;
     ReadCalled {| cancel := None;
                   keepAliveTimeout := Some (Num 75000);
                   readTimeout := Some (Num 1000) |}]
    = HandlerReturned :: BodyClosed :: tail /\
    (tail = [ConnClosed] \/ exists o2 tail', tail = ReadCalled o2 :: tail').
Proof.
  apply (serveJsx_not_found_writes_nothing
           SampleJsx.resolveIndexPath SampleJsx.path SampleJsx.renderToString
           Sample.writeResponse "pages" SampleJsx.onImport None
           (Sample.reads [SampleJsx.get_nothing])
           (Some Sample.opts)
           [] Sample.first_read (served SampleJsx.get_nothing)
           [HandlerReturned; BodyClosed;
            ReadCalled {| cancel := None;
                          keepAliveTimeout := Some (Num 75000);
                          readTimeout := Some (Num 1000) |}]
           Waiting None).
  - vm_compute. reflexivity.
  - reflexivity.
  - left. reflexivity.
  - reflexivity.
Defined.

Lemma serveJsx_serves_the_page_witness :
  exists tail,
    [Queue (WaitQueue.Enqueued SampleJsx.about_page);
     Queue (WaitQueue.WriteBegin SampleJsx.about_page);
     Queue (WaitQueue.WriteEnd SampleJsx.about_page true);
     HandlerReturned; BodyClosed;
     ReadCalled {| cancel := None;
                   keepAliveTimeout := Some (Num 75000);
                   readTimeout := Some (Num 1000) |}]
    = Queue (WaitQueue.Enqueued SampleJsx.about_page)
        :: Queue (WaitQueue.WriteBegin SampleJsx.about_page)
        :: Queue (WaitQueue.WriteEnd SampleJsx.about_page true)
        :: HandlerReturned :: BodyClosed :: tail.
Proof.
  apply (serveJsx_serves_the_page
           SampleJsx.resolveIndexPath SampleJsx.path SampleJsx.renderToString
           Sample.writeResponse "pages" SampleJsx.onImport None
           (Sample.reads [SampleJsx.get_about])
           (Some Sample.opts)
           [] Sample.first_read (served SampleJsx.get_about)
           [Queue (WaitQueue.Enqueued SampleJsx.about_page);
            Queue (WaitQueue.WriteBegin SampleJsx.about_page);
            Queue (WaitQueue.WriteEnd SampleJsx.about_page true);
            HandlerReturned; BodyClosed;
            ReadCalled {| cancel := None;
                          keepAliveTimeout := Some (Num 75000);
                          readTimeout := Some (Num 1000) |}]
           Waiting "pages/about.tsx" {| default := EFunction SampleJsx.About |}
           SampleJsx.About [("title", "About")] SampleJsx.about_page).
  - vm_compute. reflexivity.
  - reflexivity.
  - intros H. discriminate H.
  - reflexivity.
  - reflexivity.
  - reflexivity.
  - reflexivity.
  - reflexivity.
  - reflexivity.
Defined.

End JsxFacts.

(** ** [serveJsx] with a rendering that can throw *)

Module JsxRenderFacts.
Import Jsx.

Section Facts.
Variable resolveIndexPath : string -> string -> list string -> Settle (option string).
Variable path : IncomingHttpRequest -> string.
Variable writeResponse : ServerResponse -> Settle unit.
Variable dir : string.
Variable onImport : string -> Settle JsModule.
Variable parentComponent : option ElementType.

(** With a rendering that always returns, [JsxRender.serveJsx] is
    [Jsx.serveJsx]. *)
Lemma serveJsx_rendering (render : Element -> string) req :
  JsxRender.serveJsx resolveIndexPath path
    (fun el => JsxRender.Markup (render el)) writeResponse
    dir onImport parentComponent req
  = serveJsx resolveIndexPath path render writeResponse
      dir onImport parentComponent req.
Proof. reflexivity. Qed.

Variable renderToString : Element -> JsxRender.Rendered.

(** The element [serveJsx] renders for the component [el] with the props
    [props]. *)
Let page (el : Component) (props : Props) : Element :=
  createElement (or_Fragment parentComponent) []
    [createElement (Of el) props []].

(** [serveJsx] on a request whose page is resolved, imported and given
    its props: what the rendering does decides. *)
Lemma serveJsx_renders req file jsx el props :
  resolveIndexPath dir (path (baseReq req)) [".tsx"; ".jsx"]
  = Resolved (Some file) ->
  file <> "" ->
  onImport file = Resolved jsx ->
  default jsx = EFunction el ->
  match getInitialProps el with
  | PropsFunction result => result = Resolved props
  | NoFunction => props = []
  end ->
  JsxRender.serveJsx resolveIndexPath path renderToString writeResponse
    dir onImport parentComponent req
  = match renderToString (page el props) with
    | JsxRender.Markup html =>
        respond writeResponse
          {| status := Num 200;
             response_headers := [("content-type", "text/html; charset=UTF-8")];
             response_body := Some html |}
    | JsxRender.RenderError e => throws e
    end.
Proof.
  intros Hr Hne Himp Hd Hg.
  unfold JsxRender.serveJsx, awaiting, page. rewrite Hr.
  cbv beta iota zeta.
  assert (Hf : found (Some file) = Some file)
    by (apply JsxFacts.found_some; auto).
  rewrite Hf, Himp. cbv beta iota zeta. rewrite Hd. simpl.
  destruct (getInitialProps el) as [|result]; subst; reflexivity.
Qed.

(** When the rendering throws, the handler throws and has submitted
    nothing. *)
Lemma serveJsx_render_error req file jsx el props e :
  resolveIndexPath dir (path (baseReq req)) [".tsx"; ".jsx"]
  = Resolved (Some file) ->
  file <> "" ->
  onImport file = Resolved jsx ->
  default jsx = EFunction el ->
  match getInitialProps el with
  | PropsFunction result => result = Resolved props
  | NoFunction => props = []
  end ->
  renderToString (page el props) = JsxRender.RenderError e ->
  JsxRender.serveJsx resolveIndexPath path renderToString writeResponse
    dir onImport parentComponent req
  = throws e.
Proof.
  intros Hr Hne Himp Hd Hg He.
  rewrite (serveJsx_renders req file jsx el props Hr Hne Himp Hd Hg), He.
  reflexivity.
Qed.

(** [serveJsx] submits nothing, or it has resolved and imported the page
    and obtained its props. *)
Lemma serveJsx_reaches_rendering req :
  let run := JsxRender.serveJsx resolveIndexPath path renderToString
               writeResponse dir onImport parentComponent req in
  (responds run = None) \/
  exists file jsx el props,
    resolveIndexPath dir (path (baseReq req)) [".tsx"; ".jsx"]
    = Resolved (Some file) /\
    file <> "" /\
    onImport file = Resolved jsx /\
    default jsx = EFunction el /\
    match getInitialProps el with
    | PropsFunction result => result = Resolved props
    | NoFunction => props = []
    end.
Proof.
  unfold JsxRender.serveJsx, awaiting, throws, hangs, returned. cbv zeta.
  destruct (resolveIndexPath dir (path (baseReq req)) [".tsx"; ".jsx"])
    as [p| |] eqn:Hr; simpl; auto.
  destruct (found p) as [file|] eqn:Hf; simpl; auto.
  apply JsxFacts.found_some in Hf. destruct Hf as [-> Hne].
  destruct (onImport file) as [jsx| |] eqn:Himp; simpl; auto.
  destruct (falsy (default jsx)); simpl; auto.
  destruct (default jsx) as [| | | | | |el] eqn:Hd; simpl; auto.
  destruct (getInitialProps el) as [|[props| |]] eqn:Hg; simpl; auto.
  - right. exists file, jsx, el, []. rewrite Hg. auto 10.
  - right. exists file, jsx, el, props. rewrite Hg. auto 10.
Qed.

(** X17: [serveJsx] responds exactly when the path of the request
    resolves to a file, the import of that file yields a module whose
    default export is a function, the initial props, if the export has a
    function [getInitialProps], are obtained, and the rendering of the
    export with these props inside the parent component returns; the
    response is then the markup rendered, with status 200 and content
    type text/html.  A rendering that throws leaves nothing submitted. *)
Theorem serveJsx_responds_when_rendered req resp :
  responds (JsxRender.serveJsx resolveIndexPath path renderToString
              writeResponse dir onImport parentComponent req) = Some resp
  <->
  exists file jsx el props html,
    resolveIndexPath dir (path (baseReq req)) [".tsx"; ".jsx"]
    = Resolved (Some file) /\
    file <> "" /\
    onImport file = Resolved jsx /\
    default jsx = EFunction el /\
    match getInitialProps el with
    | PropsFunction result => result = Resolved props
    | NoFunction => props = []
    end /\
    renderToString
      (createElement (or_Fragment parentComponent) []
         [createElement (Of el) props []]) = JsxRender.Markup html /\
    resp = {| status := Num 200;
              response_headers := [("content-type", "text/html; charset=UTF-8")];
              response_body := Some html |}.
Proof.
  split.
  - intros H. destruct (serveJsx_reaches_rendering req) as [Hn | Hc].
    + rewrite Hn in H. discriminate H.
    + destruct Hc as [file [jsx [el [props [Hr [Hne [Hi [Hd Hg]]]]]]]].
      rewrite (serveJsx_renders req file jsx el props Hr Hne Hi Hd Hg) in H.
      destruct (renderToString (page el props)) as [html|e] eqn:Hrender.
      * injection H as <-. exists file, jsx, el, props, html. auto 10.
      * discriminate H.
  - intros [file [jsx [el [props [html [Hr [Hne [Himp [Hd [Hg [Hh ->]]]]]]]]]]].
    rewrite (serveJsx_renders req file jsx el props Hr Hne Himp Hd Hg).
    unfold page. rewrite Hh. reflexivity.
Qed.

End Facts.

End JsxRenderFacts.

(** ** Handlers that respond after they have returned *)








(** ** Requests with several Connection fields *)

